(** * ScrapeIt: the image scraping pipeline of [src/backend]

    A shallow embedding of [scrapers/images.py] and [routers/root.py].

    Python values are modelled as follows.
    - A [str] is a sequence of Unicode code points: [list N].  The literal
      strings of the source are written [lit "..."], which maps each ASCII
      character of the literal to its code point.
    - A [bytes] object is a [list byte].
    - An operation that can raise returns a [result]: [Ok v] or [Raise e].
    - The file system and the network are explicit: a [World] holds the
      directories, the files, and the log of the effects performed so far. *)

From Stdlib Require Import ZArith NArith Ascii String Strings.Byte.
From stdpp Require Import base option list gmap sets.

Local Open Scope N_scope.

(** ** Python strings *)

Abbreviation str := (list N).
Abbreviation bytes := (list byte).

#[global] Instance byte_eq_decision : EqDecision byte := Byte.byte_eq_dec.

Definition lit (s : string) : str :=
  List.map N_of_ascii (list_ascii_of_string s).

Module Py.

(** [s.startswith(p)] *)
Fixpoint startswith (s p : str) {struct p} : bool :=
  match p, s with
  | [], _ => true
  | _ :: _, [] => false
  | a :: p', b :: s' => (a =? b) && startswith s' p'
  end.

(** [s.startswith((p1, p2, ...))]: true when one of the prefixes fits. *)
Definition startswith_any (s : str) (ps : list str) : bool :=
  existsb (startswith s) ps.

(** [s.endswith(p)] *)
Definition endswith (s p : str) : bool :=
  startswith (rev s) (rev p).

Definition endswith_any (s : str) (ps : list str) : bool :=
  existsb (endswith s) ps.

(** [s.lstrip(c)] for a one-character argument: drops every leading [c]. *)
Fixpoint lstrip (c : N) (s : str) : str :=
  match s with
  | [] => []
  | a :: s' => if a =? c then lstrip c s' else s
  end.

(** [s.rstrip(c)] *)
Definition rstrip (c : N) (s : str) : str :=
  rev (lstrip c (rev s)).

(** [s.split(c)] for a one-character separator.  [cur] is the piece
    being read, reversed. *)
Fixpoint split_from (c : N) (cur : str) (s : str) : list str :=
  match s with
  | [] => [rev cur]
  | a :: s' =>
      if a =? c then rev cur :: split_from c [] s'
      else split_from c (a :: cur) s'
  end.

Definition split (c : N) (s : str) : list str := split_from c [] s.

(** Truth value of a string: [if s:] holds for a non-empty string. *)
Definition truthy (s : str) : bool :=
  match s with [] => false | _ :: _ => true end.

End Py.

(** Code points of the characters the source names. *)
Definition slash : N := 47.      (* "/" *)
Definition question : N := 63.   (* "?" *)
Definition newline : N := 10.
Definition underscore : N := 95. (* "_" *)

(** ** [os.path] (POSIX) *)

Module os_path.

(** [posixpath.join(a, b)]: an absolute [b] discards [a]; otherwise the
    two are joined by one slash unless [a] is empty or ends with one. *)
Definition join (a b : str) : str :=
  if Py.startswith b [slash] then b
  else if (negb (Py.truthy a)) || Py.endswith a [slash] then a ++ b
  else a ++ slash :: b.

(** The text after the last slash, read from the reversed string. *)
Fixpoint rev_tail_name (r : str) : str :=
  match r with
  | [] => []
  | a :: r' => if a =? slash then [] else a :: rev_tail_name r'
  end.

(** [posixpath.basename(p)]: [p[p.rfind("/") + 1:]]. *)
Definition basename (p : str) : str := rev (rev_tail_name (rev p)).

End os_path.

(** ** Pure helpers of [scrapers/images.py] *)

(** [re.sub(r"\?.*", "", s)]: every match starts at a question mark and
    runs to the end of the line, since [.] does not match a newline; the
    scan resumes at that newline.  [inq] tells whether the scan is inside
    a match. *)
Fixpoint strip_query_from (inq : bool) (s : str) : str :=
  match s with
  | [] => []
  | c :: s' =>
      if inq then
        if c =? newline then c :: strip_query_from false s'
        else strip_query_from true s'
      else
        if c =? question then strip_query_from true s'
        else c :: strip_query_from false s'
  end.

Definition strip_query (s : str) : str := strip_query_from false s.

(** The character class [[a-zA-Z0-9\-.]]. *)
Definition valid_name_char (c : N) : bool :=
  ((97 <=? c) && (c <=? 122))      (* a-z *)
  || ((65 <=? c) && (c <=? 90))    (* A-Z *)
  || ((48 <=? c) && (c <=? 57))    (* 0-9 *)
  || (c =? 45)                     (* - *)
  || (c =? 46).                    (* . *)

(** [re.sub(r"[^a-zA-Z0-9\-.]", "_", name)] *)
Definition replace_invalid (name : str) : str :=
  List.map (fun c => if valid_name_char c then c else underscore) name.

Definition sanitize_image_name (image_url : str) : str :=
  let image_url := strip_query image_url in
  let image_name := os_path.basename image_url in
  replace_invalid image_name.

Definition resolve_url (url base_url : str) : str :=
  if negb (Py.startswith_any url [lit "http"; lit "https"]) then
    if Py.startswith url (lit "//") then
      lit "https:" ++ url
    else if Py.startswith url (lit "/") then
      Py.rstrip slash base_url ++ lit "/" ++ Py.lstrip slash url
    else
      Py.rstrip slash base_url ++ lit "/" ++ url
  else url.

(** ** The identity hasher: UTF-8 and MD5 *)

(** [s.encode()]: UTF-8.  A surrogate code point cannot be encoded and
    raises [UnicodeEncodeError]; [None] stands for that. *)
Definition utf8_char (c : N) : option (list N) :=
  if c <? 0x80 then Some [c]
  else if c <? 0x800 then
    Some [N.lor 0xC0 (N.shiftr c 6); N.lor 0x80 (N.land c 0x3F)]
  else if c <? 0x10000 then
    if (0xD800 <=? c) && (c <=? 0xDFFF) then None
    else Some [N.lor 0xE0 (N.shiftr c 12);
               N.lor 0x80 (N.land (N.shiftr c 6) 0x3F);
               N.lor 0x80 (N.land c 0x3F)]
  else if c <? 0x110000 then
    Some [N.lor 0xF0 (N.shiftr c 18);
          N.lor 0x80 (N.land (N.shiftr c 12) 0x3F);
          N.lor 0x80 (N.land (N.shiftr c 6) 0x3F);
          N.lor 0x80 (N.land c 0x3F)]
  else None.

Fixpoint encode (s : str) : option bytes :=
  match s with
  | [] => Some []
  | c :: s' =>
      match utf8_char c, encode s' with
      | Some bs, Some rest =>
          match mapM Byte.of_N bs with
          | Some bs' => Some (bs' ++ rest)
          | None => None
          end
      | _, _ => None
      end
  end.

Module MD5.

Local Open Scope Z_scope.

(** 32-bit words are integers in [0, 2^32); additions wrap around. *)
Definition wrap32 (x : Z) : Z := x mod 2 ^ 32.
Definition add32 (a b : Z) : Z := wrap32 (a + b).
Definition not32 (a : Z) : Z := Z.lxor a 0xFFFFFFFF.
Definition rotl32 (x c : Z) : Z :=
  Z.lor (wrap32 (Z.shiftl x c)) (Z.shiftr x (32 - c)).

Definition shifts : list Z :=
  [7; 12; 17; 22; 7; 12; 17; 22; 7; 12; 17; 22; 7; 12; 17; 22;
   5; 9; 14; 20; 5; 9; 14; 20; 5; 9; 14; 20; 5; 9; 14; 20;
   4; 11; 16; 23; 4; 11; 16; 23; 4; 11; 16; 23; 4; 11; 16; 23;
   6; 10; 15; 21; 6; 10; 15; 21; 6; 10; 15; 21; 6; 10; 15; 21].

Definition sines : list Z :=
  [ 0xd76aa478; 0xe8c7b756; 0x242070db; 0xc1bdceee;
    0xf57c0faf; 0x4787c62a; 0xa8304613; 0xfd469501;
    0x698098d8; 0x8b44f7af; 0xffff5bb1; 0x895cd7be;
    0x6b901122; 0xfd987193; 0xa679438e; 0x49b40821;
    0xf61e2562; 0xc040b340; 0x265e5a51; 0xe9b6c7aa;
    0xd62f105d; 0x02441453; 0xd8a1e681; 0xe7d3fbc8;
    0x21e1cde6; 0xc33707d6; 0xf4d50d87; 0x455a14ed;
    0xa9e3e905; 0xfcefa3f8; 0x676f02d9; 0x8d2a4c8a;
    0xfffa3942; 0x8771f681; 0x6d9d6122; 0xfde5380c;
    0xa4beea44; 0x4bdecfa9; 0xf6bb4b60; 0xbebfbc70;
    0x289b7ec6; 0xeaa127fa; 0xd4ef3085; 0x04881d05;
    0xd9d4d039; 0xe6db99e5; 0x1fa27cf8; 0xc4ac5665;
    0xf4292244; 0x432aff97; 0xab9423a7; 0xfc93a039;
    0x655b59c3; 0x8f0ccc92; 0xffeff47d; 0x85845dd1;
    0x6fa87e4f; 0xfe2ce6e0; 0xa3014314; 0x4e0811a1;
    0xf7537e82; 0xbd3af235; 0x2ad7d2bb; 0xeb86d391 ].

Definition nth_word (l : list Z) (i : Z) : Z :=
  default 0 (l !! Z.to_nat i).

(** Little-endian word of four bytes, and back. *)
Definition word_of_bytes (bs : list Z) : Z :=
  nth_word bs 0 + Z.shiftl (nth_word bs 1) 8
  + Z.shiftl (nth_word bs 2) 16 + Z.shiftl (nth_word bs 3) 24.

Definition bytes_of_word (w : Z) : list Z :=
  [Z.land w 0xFF; Z.land (Z.shiftr w 8) 0xFF;
   Z.land (Z.shiftr w 16) 0xFF; Z.land (Z.shiftr w 24) 0xFF].

(** The message followed by 0x80, zeros up to 56 modulo 64, and the bit
    length on eight little-endian bytes. *)
Definition pad (msg : list Z) : list Z :=
  let len := Z.of_nat (length msg) in
  let zeros := (55 - len) mod 64 in
  let bits := (8 * len) mod 2 ^ 64 in
  msg ++ [0x80] ++ replicate (Z.to_nat zeros) 0
      ++ bytes_of_word (wrap32 bits) ++ bytes_of_word (Z.shiftr bits 32).

(** Cuts [l] into pieces of [n] elements; [fuel] bounds the pieces. *)
Fixpoint chunks {A} (fuel n : nat) (l : list A) : list (list A) :=
  match fuel, l with
  | O, _ | _, [] => []
  | S fuel', _ => take n l :: chunks fuel' n (drop n l)
  end.

Definition words_of_block (block : list Z) : list Z :=
  word_of_bytes <$> chunks 16 4 block.

Definition state : Type := Z * Z * Z * Z.

Definition round (m : list Z) (st : state) (i : Z) : state :=
  let '(a, b, c, d) := st in
  let '(f, g) :=
    if i <? 16 then (Z.lor (Z.land b c) (Z.land (not32 b) d), i)
    else if i <? 32 then
      (Z.lor (Z.land d b) (Z.land (not32 d) c), (5 * i + 1) mod 16)
    else if i <? 48 then (Z.lxor (Z.lxor b c) d, (3 * i + 5) mod 16)
    else (Z.lxor c (Z.lor b (not32 d)), (7 * i) mod 16) in
  let f := add32 (add32 (add32 f a) (nth_word sines i)) (nth_word m g) in
  (d, add32 b (rotl32 f (nth_word shifts i)), b, c).

Definition process_block (st : state) (block : list Z) : state :=
  let m := words_of_block block in
  let '(a, b, c, d) := st in
  let '(a', b', c', d') :=
    foldl (round m) st (Z.of_nat <$> seq 0 64) in
  (add32 a a', add32 b b', add32 c c', add32 d d').

Definition init : state :=
  (0x67452301, 0xefcdab89, 0x98badcfe, 0x10325476).

Definition digest (msg : bytes) : list Z :=
  let padded := pad ((fun b => Z.of_N (Byte.to_N b)) <$> msg) in
  let blocks := chunks (length padded) 64 padded in
  let '(a, b, c, d) := foldl process_block init blocks in
  bytes_of_word a ++ bytes_of_word b ++ bytes_of_word c ++ bytes_of_word d.

(** Lowercase hexadecimal digit, as a code point. *)
Definition hex_digit (n : Z) : N :=
  Z.to_N (if n <? 10 then 48 + n else 87 + n).

Definition hexdigest (msg : bytes) : str :=
  flat_map (fun b => [hex_digit (Z.shiftr b 4); hex_digit (Z.land b 0xF)])
           (digest msg).

End MD5.

(** ** Exceptions, results and Python values *)

Inductive exn :=
  | RequestException      (* requests: connection error, timeout, bad URL *)
  | HTTPError (status : Z)               (* a RequestException, from
                                            [raise_for_status] *)
  | UnidentifiedImageError               (* PIL could not decode *)
  | OSError                              (* the operating system refused *)
  | IndexError
  | UnicodeEncodeError
  | HTTPException (status_code : Z) (detail : str)   (* fastapi *)
  | RuntimeError.                        (* any other exception *)

(** [isinstance(e, requests.RequestException)] *)
Definition is_RequestException (e : exn) : bool :=
  match e with
  | RequestException | HTTPError _ => true
  | _ => false
  end.

Inductive result (A : Type) :=
  | Ok (a : A)
  | Raise (e : exn).
Arguments Ok {A} a.
Arguments Raise {A} e.

(** The values stored in the dictionaries the API returns. *)
Inductive pyval :=
  | VStr (s : str)
  | VList (l : list str).

(** A dictionary literal, as its items in order; [{}] is [[]]. *)
Abbreviation dict := (list (str * pyval)).

(** [sanitize_url]: the MD5 hex digest of the UTF-8 encoding. *)
Definition sanitize_url (url : str) : result str :=
  match encode url with
  | Some b => Ok (MD5.hexdigest b)
  | None => Raise UnicodeEncodeError
  end.

(** ** The world: file system and effect log *)

Inductive event :=
  | EvGet (url : str)                       (* an HTTP GET was issued *)
  | EvMakedirs (path : str)                 (* [os.makedirs] went through *)
  | EvWrite (path : str) (content : bytes)  (* a file was written in full *)
  | EvPartial (path : str) (content : bytes).
      (* a file was opened for writing and the write failed: the file
         holds [content], the part of the payload that got through *)

Record World := {
  dirs : gset str;          (* the directories, by path *)
  files : gmap str bytes;   (* the regular files, by path *)
  log : list event          (* effects so far, oldest first *)
}.

Record Response := { status_code : Z; content : bytes }.

(** The document model of BeautifulSoup, as far as the scraper reads it:
    the tags in document order, each with its attributes. *)
Record Tag := { tag_name : str; tag_attrs : gmap str str }.
Abbreviation Soup := (list Tag).

(** What the program takes from outside.  The answers of the network and
    of the operating system may depend on everything done before, so they
    read the log. *)
Class Runtime := {
  (** [session.get(url)]: a response, or the exception requests raises.
      Every request is answered: one that hangs for ever has no place
      here. *)
  http_get : list event -> str -> result Response;
  (** [Image.open(BytesIO(b)).format]: the format tag PIL finds, or the
      exception it raises on bytes it cannot identify. *)
  Image_open : bytes -> result str;
  (** [BeautifulSoup(b, "html.parser")] *)
  html_parser : bytes -> Soup;
  (** Whether the operating system refuses to create this directory or
      to open this file for writing (permissions, no inode left). *)
  os_refuses : list event -> str -> bool;
  (** Whether [f.write(b)], or the flush when the file is closed, fails
      on the file that was opened at this path (full disk, I/O error),
      and how many bytes had reached the file by then. *)
  write_fails : list event -> str -> bytes -> option nat;
  (** [str.lower], which follows the Unicode case tables. *)
  str_lower : str -> str
}.

(** Computations that read and change the world and may raise. *)
Definition M (A : Type) : Type := World -> result A * World.

Definition ret {A} (a : A) : M A := fun w => (Ok a, w).

Definition raise {A} (e : exn) : M A := fun w => (Raise e, w).

Definition bind {A B} (m : M A) (k : A -> M B) : M B :=
  fun w =>
    match m w with
    | (Ok a, w') => k a w'
    | (Raise e, w') => (Raise e, w')
    end.

(** [try: m except E as e: h e], where [catches] tells the instances of [E]. *)
Definition try_except {A} (m : M A) (catches : exn -> bool)
    (h : exn -> M A) : M A :=
  fun w =>
    match m w with
    | (Ok a, w') => (Ok a, w')
    | (Raise e, w') => if catches e then h e w' else (Raise e, w')
    end.

Definition lift {A} (r : result A) : M A := fun w => (r, w).

#[global] Instance M_ret : MRet M := @ret.
#[global] Instance M_bind : MBind M := fun A B k m => bind m k.

Definition record (e : event) (w : World) : World :=
  {| dirs := dirs w; files := files w; log := log w ++ [e] |}.

(** The prefixes of [p] that end just before a slash, and [p] itself:
    the directories [os.makedirs(p)] makes sure exist. *)
Fixpoint path_prefixes (before p : str) : list str :=
  match p with
  | [] => [before]
  | c :: p' =>
      (if (c =? slash) && Py.truthy before then [before] else [])
      ++ path_prefixes (before ++ [c]) p'
  end.

Section Program.

Context `{RT : Runtime}.

(** *** File system primitives *)

Definition isdir (w : World) (p : str) : bool :=
  bool_decide (p ∈ dirs w).

Definition isfile (w : World) (p : str) : bool :=
  bool_decide (is_Some (files w !! p)).

(** [os.makedirs(p, exist_ok=True)] *)
Definition makedirs (p : str) : M unit :=
  fun w =>
    if os_refuses (log w) p then (Raise OSError, w)
    else if existsb (isfile w) (path_prefixes [] p) then (Raise OSError, w)
    else
      (Ok tt,
       {| dirs := dirs w ∪ list_to_set (path_prefixes [] p);
          files := files w;
          log := log w ++ [EvMakedirs p] |}).

(** The part of [p] before its last slash. *)
Definition dirname (p : str) : str :=
  take (length p - length (os_path.basename p) - 1)%nat p.

(** A path whose last component is empty, [.] or [..] names a directory
    or nothing at all, never a regular file. *)
Definition names_no_file (p : str) : bool :=
  bool_decide (os_path.basename p ∈ [[]; lit "."; lit ".."]).

(** [with open(p, "wb") as f: f.write(b)].  [open] raises, and nothing
    has happened, when the system refuses, when [p] names a directory, or
    when the directory that should hold [p] is missing.  Otherwise [open]
    creates the file, or empties the one that is there, before anything
    is written: when the write then fails, the exception leaves a file
    behind that holds only the bytes that got through.  When nothing
    fails, [p] holds exactly [b]. *)
Definition open_wb_write (p : str) (b : bytes) : M unit :=
  fun w =>
    if os_refuses (log w) p then (Raise OSError, w)
    else if names_no_file p || isdir w p then (Raise OSError, w)
    else if Py.truthy (dirname p) && negb (isdir w (dirname p))
    then (Raise OSError, w)
    else
      match write_fails (log w) p b with
      | Some n =>
          (Raise OSError,
           {| dirs := dirs w;
              files := <[p := take n b]> (files w);
              log := log w ++ [EvPartial p (take n b)] |})
      | None =>
          (Ok tt,
           {| dirs := dirs w;
              files := <[p := b]> (files w);
              log := log w ++ [EvWrite p b] |})
      end.

(** The name [n] with [join(d, n) = p], when [p] lies directly in [d]. *)
Definition entry_name (d p : str) : option str :=
  let prefix := os_path.join d [] in
  if Py.startswith p prefix then
    let n := drop (length prefix) p in
    if Py.truthy n && negb (bool_decide (slash ∈ n)) then Some n else None
  else None.

(** [os.listdir(d)]: the names of the files and directories in [d], in
    an order of the system's choosing. *)
Definition listdir (w : World) (d : str) : list str :=
  omap (entry_name d) (elements (dom (files w) ∪ dirs w)).

(** *** The network *)

(** [session.get(url)] *)
Definition session_get (url : str) : M Response :=
  fun w => (http_get (log w) url, record (EvGet url) w).

(** [response.raise_for_status()]: raises for 4xx and 5xx. *)
Definition raise_for_status (r : Response) : M unit :=
  if (400 <=? status_code r)%Z && (status_code r <? 600)%Z
  then raise (HTTPError (status_code r))
  else ret tt.

(** *** The fetch-validate worker *)

Definition accepted_formats : list str :=
  [lit "JPEG"; lit "PNG"; lit "GIF"; lit "BMP"; lit "WEBP"].

(** [fmt in accepted_formats] *)
Definition format_accepted (fmt : str) : bool :=
  bool_decide (fmt ∈ accepted_formats).

(** The statements of [download_image_if_valid] that follow
    [session.get], up to the [return] inside the [try]. *)
Definition validate_and_save (image_url save_path : str)
    (response : Response) : M (option str) :=
  raise_for_status response ;;
  img_format ← lift (Image_open (content response));
  if format_accepted img_format then
    open_wb_write save_path (content response) ;;
    ret (Some image_url)
  else ret None.

Definition download_image_if_valid (image_url save_path : str)
    : M (option str) :=
  try_except
    (response ← session_get image_url;
     validate_and_save image_url save_path response)
    (fun _ => true)
    (fun _ => ret None).

(** The same worker once the answer [r] of [session.get] is in: what a
    pool thread still has to do while its request is in flight. *)
Definition finish_download (image_url save_path : str)
    (r : result Response) : M (option str) :=
  try_except
    (response ← lift r;
     validate_and_save image_url save_path response)
    (fun _ => true)
    (fun _ => ret None).

(** *** Listing a store directory *)

Definition listed_extensions : list str :=
  [lit ".jpg"; lit ".jpeg"; lit ".png"; lit ".gif"; lit ".bmp";
   lit ".webp"].

Definition is_image_name (filename : str) : bool :=
  Py.endswith_any (str_lower filename) listed_extensions.

Definition download_url (hash_value filename : str) : str :=
  lit "/downloads/" ++ hash_value ++ lit "/" ++ filename.

Definition get_downloads (hash_value : str) : M dict :=
  fun w =>
    let download_path := os_path.join (lit "downloads") hash_value in
    if negb (isdir w download_path) then
      (Raise (HTTPException 404 (lit "Directory not found")), w)
    else
      let image_files :=
        download_url hash_value
          <$> filter (fun f => is_image_name f = true)
                     (listdir w download_path) in
      if negb (bool_decide (image_files ≠ [])) then
        (Raise (HTTPException 404 (lit "No images found in the directory")),
         w)
      else (Ok [(lit "images", VList image_files)], w).

(** *** Candidate extraction *)

Definition image_extensions : list str :=
  [lit ".jpg"; lit ".jpeg"; lit ".png"; lit ".gif"; lit ".bmp";
   lit ".webp"].

(** [soup.find_all(names)]: the tags with one of the names, in document
    order. *)
Definition find_all (soup : Soup) (names : list str) : list Tag :=
  filter (fun tag => tag_name tag ∈ names) soup.

(** [url and any(url.lower().endswith(ext) for ext in image_extensions)] *)
Definition looks_like_image (url : str) : bool :=
  Py.truthy url
  && existsb (fun ext => Py.endswith (str_lower url) ext) image_extensions.

Definition potential_image_urls (soup : Soup) : list str :=
  tag ← find_all soup [lit "img"; lit "a"];
  attr ← [lit "href"; lit "src"];
  match tag_attrs tag !! attr with
  | Some url => if looks_like_image url then [url] else []
  | None => []
  end.

(** *** The worker pool

    The [with ThreadPoolExecutor(max_workers=10)] block of [scrape_images]
    is a machine whose steps are taken by the main thread and by the
    worker threads, in any order the scheduler likes.  The executor is
    Python's: [submit] queues a call and may start a worker thread while
    fewer than [max_workers] exist; a worker thread runs one call at a
    time, taking the oldest of the queue; [as_completed] yields the
    futures that are done, each once; leaving the [with] block waits for
    the threads.  A call is [download_image_if_valid]: the thread sends
    the GET when it starts the call, and validates and saves when it
    finishes it. *)

Definition max_workers : nat := 10.

(** The arguments of one submitted [download_image_if_valid] call. *)
Record Task := { task_url : str; task_path : str }.

(** Where the main thread is in [scrape_images]. *)
Inductive Main :=
  | Submitting (todo : list str)   (* in the list of [executor.submit] *)
  | Collecting (yielded : list nat) (images_downloaded : list str)
                                   (* in the [as_completed] loop *)
  | Returned (images_downloaded : list str)
  | Raised (e : exn).

Record Pool := {
  world : World;
  futures : list Task;                (* submitted calls, by index *)
  work_queue : list nat;              (* calls no thread has taken yet *)
  threads : list (option (nat * result Response));
                                      (* per worker thread: the call it
                                         runs and the answer to its GET *)
  finished : list (nat * result (option str));
                                      (* done futures with their result,
                                         in completion order *)
  main : Main
}.

Inductive action :=
  | Submit (spawn : bool)  (* main: [executor.submit]; the executor may
                              start a thread when fewer than
                              [max_workers] exist, and does when none
                              exists *)
  | AsCompleted            (* main: enters the [as_completed] loop *)
  | Start (t : nat)        (* thread [t] takes a call and sends its GET *)
  | Finish (t : nat)       (* thread [t] gets the answer and completes *)
  | Yield (i : nat)        (* main: [as_completed] yields future [i] *)
  | Return.                (* main: leaves the [with] block and returns *)

Definition is_idle (th : option (nat * result Response)) : bool :=
  match th with None => true | Some _ => false end.

Definition in_flight (s : Pool) : nat :=
  length (filter (fun th => is_idle th = false) (threads s)).

Definition adjust_thread_count (spawn : bool)
    (ths : list (option (nat * result Response)))
    : list (option (nat * result Response)) :=
  if (spawn || bool_decide (ths = [])) && (length ths <? max_workers)%nat
  then ths ++ [None] else ths.

Definition submit_task (base_url local_download_path url : str) : Task :=
  {| task_url := resolve_url url base_url;
     task_path :=
       os_path.join local_download_path (sanitize_image_name url) |}.

(** [future.result()] of a finished future. *)
Definition future_result (fin : list (nat * result (option str)))
    (i : nat) : option (result (option str)) :=
  snd <$> find (fun e => bool_decide (e.1 = i)) fin.

(** [if result: images_downloaded.append(result)] *)
Definition append_if_truthy (imgs : list str) (r : option str) : list str :=
  match r with
  | Some u => if Py.truthy u then imgs ++ [u] else imgs
  | None => imgs
  end.

Definition step (base_url local_download_path : str) (a : action)
    (s : Pool) : option Pool :=
  match a with
  | Submit spawn =>
      match main s with
      | Submitting (url :: todo) =>
          Some {| world := world s;
                  futures := futures s
                    ++ [submit_task base_url local_download_path url];
                  work_queue := work_queue s ++ [length (futures s)];
                  threads := adjust_thread_count spawn (threads s);
                  finished := finished s;
                  main := Submitting todo |}
      | _ => None
      end
  | AsCompleted =>
      match main s with
      | Submitting [] =>
          Some {| world := world s; futures := futures s;
                  work_queue := work_queue s; threads := threads s;
                  finished := finished s;
                  main := Collecting [] [] |}
      | _ => None
      end
  | Start t =>
      match threads s !! t, work_queue s with
      | Some None, i :: queue =>
          task ← futures s !! i;
          let '(r, w) := session_get (task_url task) (world s) in
          Some {| world := w; futures := futures s;
                  work_queue := queue;
                  threads := <[t := Some (i, r)]> (threads s);
                  finished := finished s;
                  main := main s |}
      | _, _ => None
      end
  | Finish t =>
      match threads s !! t with
      | Some (Some (i, r)) =>
          task ← futures s !! i;
          let '(o, w) :=
            finish_download (task_url task) (task_path task) r (world s) in
          Some {| world := w; futures := futures s;
                  work_queue := work_queue s;
                  threads := <[t := None]> (threads s);
                  finished := finished s ++ [(i, o)];
                  main := main s |}
      | _ => None
      end
  | Yield i =>
      match main s with
      | Collecting yielded imgs =>
          if bool_decide (i ∈ yielded) then None
          else
            o ← future_result (finished s) i;
            Some {| world := world s; futures := futures s;
                    work_queue := work_queue s; threads := threads s;
                    finished := finished s;
                    main :=
                      match o with
                      | Ok r =>
                          Collecting (yielded ++ [i])
                                     (append_if_truthy imgs r)
                      | Raise e => Raised e
                      end |}
      | _ => None
      end
  | Return =>
      match main s with
      | Collecting yielded imgs =>
          if bool_decide (length yielded = length (futures s))
             && forallb is_idle (threads s)
          then Some {| world := world s; futures := futures s;
                       work_queue := work_queue s; threads := threads s;
                       finished := finished s;
                       main := Returned imgs |}
          else None
      | _ => None
      end
  end.

(** A schedule is the list of the steps taken, in order. *)
Fixpoint run (base_url local_download_path : str) (sched : list action)
    (s : Pool) : option Pool :=
  match sched with
  | [] => Some s
  | a :: sched' =>
      s' ← step base_url local_download_path a s;
      run base_url local_download_path sched' s'
  end.

Definition start_pool (w : World) (urls : list str) : Pool :=
  {| world := w; futures := []; work_queue := []; threads := [];
     finished := []; main := Submitting urls |}.

(** [scrape_images] under the schedule [sched].  [None] when [sched] is
    not a complete run of the pool: it has a step that cannot be taken
    or stops before the function returns. *)
Definition scrape_images (sched : list action) (soup : Soup)
    (base_url download_dir : str)
    : World -> option (result (list str) * World) :=
  fun w =>
    let urls := potential_image_urls soup in
    let local_download_path :=
      os_path.join (lit "downloads") download_dir in
    match makedirs local_download_path w with
    | (Raise e, w1) => Some (Raise e, w1)
    | (Ok _, w1) =>
        s ← run base_url local_download_path sched (start_pool w1 urls);
        match main s with
        | Returned imgs => Some (Ok imgs, world s)
        | Raised e => Some (Raise e, world s)
        | _ => None
        end
    end.

(** *** The Scrape operation *)

Definition location (hashed_dir : str) : dict :=
  [(lit "Images are available for download at",
    VStr (lit "http://127.0.0.1:8000/api/downloads/" ++ hashed_dir))].

(** The [try] block of [scrape]: fetch the page. *)
Definition fetch_page (url : str) : M Response :=
  response ← session_get url;
  raise_for_status response ;;
  ret response.

Definition scrape (sched : list action) (url : str)
    : World -> option (result dict * World) :=
  fun w =>
    match fetch_page url w with
    | (Raise e, w1) =>
        if is_RequestException e then Some (Ok [], w1)
        else Some (Raise e, w1)
    | (Ok response, w1) =>
        let soup := html_parser (content response) in
        match sanitize_url url with
        | Raise e => Some (Raise e, w1)
        | Ok hashed_dir =>
            match Py.split slash url !! 2%nat with
            | None => Some (Raise IndexError, w1)
            | Some host =>
                let base_domain := lit "https://" ++ host in
                '(r, w2) ← scrape_images sched soup base_domain hashed_dir w1;
                match r with
                | Raise e => Some (Raise e, w2)
                | Ok _ => Some (Ok (location hashed_dir), w2)
                end
            end
        end
    end.

(** [routers/root.py] *)
Definition scrape_images_endpoint (sched : list action) (url : str)
    : World -> option (result dict * World) :=
  fun w =>
    match sanitize_url url with
    | Raise e => Some (Raise e, w)
    | Ok hashed_dir =>
        if isdir w (os_path.join (lit "downloads") hashed_dir)
        then Some (Ok (location hashed_dir), w)
        else scrape sched url w
    end.

End Program.

(** ** Vocabulary of the statements *)

Section Vocabulary.

Context `{RT : Runtime}.

(** The payload of a fetch that succeeded: the request raised nothing
    and [raise_for_status] accepts the status. *)
Definition fetched (answer : result Response) : option bytes :=
  match answer with
  | Ok r =>
      if (400 <=? status_code r)%Z && (status_code r <? 600)%Z then None
      else Some (content r)
  | Raise _ => None
  end.

(** The bytes decode as an image of an accepted format. *)
Definition valid_image (b : bytes) : bool :=
  match Image_open b with
  | Ok fmt => format_accepted fmt
  | Raise _ => false
  end.

(** A call that got the answer [r] succeeds in the world [w]: the fetch
    succeeded, the payload is a valid image, and the write goes through. *)
Definition call_succeeds (save_path : str) (r : result Response)
    (w : World) : Prop :=
  ∃ b, fetched r = Some b ∧ valid_image b = true
       ∧ (open_wb_write save_path b w).1 = Ok tt.

(** The events added to the log between [w] and [w']. *)
Definition new_events (w w' : World) : list event :=
  drop (length (log w)) (log w').

(** The URLs the finished calls returned. *)
Definition successes (fin : list (nat * result (option str))) : list str :=
  e ← fin;
  match e.2 with
  | Ok (Some u) => [u]
  | _ => []
  end.

(** The store directory of a page identity. *)
Definition store_path (hashed_dir : str) : str :=
  os_path.join (lit "downloads") hashed_dir.

(** The calls the worker threads are running. *)
Definition running (s : Pool) : list nat :=
  omap (fun th => fst <$> th) (threads s).

(** What the [as_completed] loop has appended after yielding [ys]. *)
Definition collect (fin : list (nat * result (option str)))
    (ys : list nat) : list str :=
  i ← ys;
  match future_result fin i with
  | Some (Ok (Some u)) => [u]
  | _ => []
  end.

(** What holds in every state the pool of [scrape_images] reaches, for
    the candidates [urls]: at most [max_workers] threads; every
    submitted call is queued, running or finished, and only one of the
    three; a finished call returned [None] or its own URL; the main
    thread has collected the URLs of the futures it was handed and has
    raised nothing. *)
Record pool_inv (base_url local_download_path : str) (urls : list str)
    (s : Pool) : Prop := {
  inv_threads : (length (threads s) ≤ max_workers)%nat;
  inv_spawned : futures s ≠ [] → threads s ≠ [];
  inv_calls :
    work_queue s ++ running s ++ (fst <$> finished s)
    ≡ₚ seq 0 (length (futures s));
  inv_results :
    ∀ i o, (i, o) ∈ finished s →
      ∃ task, futures s !! i = Some task
              ∧ (o = Ok None ∨ o = Ok (Some (task_url task)));
  inv_urls :
    Forall (fun task => Py.truthy (task_url task) = true) (futures s);
  inv_main :
    match main s with
    | Submitting todo =>
        submit_task base_url local_download_path <$> urls
        = futures s ++ (submit_task base_url local_download_path <$> todo)
    | Collecting ys imgs =>
        futures s = submit_task base_url local_download_path <$> urls
        ∧ NoDup ys ∧ ys ⊆ (fst <$> finished s)
        ∧ imgs = collect (finished s) ys
    | Returned imgs =>
        futures s = submit_task base_url local_download_path <$> urls
        ∧ work_queue s = [] ∧ running s = []
        ∧ imgs ≡ₚ successes (finished s)
    | Raised _ => False
    end
}.

(** A bound on the steps the pool can still take. *)
Definition steps_left (s : Pool) : nat :=
  (2 * length (work_queue s) + length (running s)
   + match main s with
     | Submitting todo => 4 * length todo + length (futures s) + 2
     | Collecting ys _ => (length (futures s) - length ys) + 1
     | _ => 0
     end)%nat.

End Vocabulary.

(** ** A test bench

    A small outside world to run the program in: a site with one gallery
    page and five linked resources, of which two cannot be fetched and one
    is not an image. *)

Module Bench.

Definition blit (s : string) : bytes := list_byte_of_string s.

(** ASCII lower-casing; other code points are left as they are. *)
Definition ascii_lower (s : str) : str :=
  (fun c => if (65 <=? c) && (c <=? 90) then c + 32 else c) <$> s.

Definition png_bytes : bytes := blit "PNG:pixels".
Definition webp_bytes : bytes := blit "RIFF:WEBP:pixels".
Definition tiff_bytes : bytes := blit "TIFF:pixels".
Definition html_error_page : bytes := blit "<html>Not an image</html>".
Definition gallery_html : bytes := blit "<html>gallery</html>".

Definition page_url : str := lit "https://site.com/gallery".

Definition table : list (str * result Response) :=
  [ (page_url, Ok {| status_code := 200; content := gallery_html |});
    (lit "https://site.com/img/a.png",
     Ok {| status_code := 200; content := png_bytes |});
    (lit "https://site.com/b.jpg",
     Ok {| status_code := 200; content := html_error_page |});
    (lit "https://site.com/c.GIF",
     Ok {| status_code := 404; content := html_error_page |});
    (lit "https://cdn.site.com/e.webp",
     Ok {| status_code := 200; content := webp_bytes |});
    (lit "https://site.com/scan.png",
     Ok {| status_code := 200; content := tiff_bytes |});
    (lit "https://site.com/moved",
     Ok {| status_code := 503; content := [] |}) ].

(** Every other URL is unreachable. *)
Definition get (_ : list event) (url : str) : result Response :=
  match find (fun e => bool_decide (e.1 = url)) table with
  | Some (_, r) => r
  | None => Raise RequestException
  end.

(** A decoder that reads the format from the first bytes. *)
Definition decode (b : bytes) : result str :=
  if bool_decide (take 3 b = blit "PNG") then Ok (lit "PNG")
  else if bool_decide (take 4 b = blit "RIFF") then Ok (lit "WEBP")
  else if bool_decide (take 4 b = blit "TIFF") then Ok (lit "TIFF")
  else Raise UnidentifiedImageError.

Definition img (attrs : list (str * str)) : Tag :=
  {| tag_name := lit "img"; tag_attrs := list_to_map attrs |}.
Definition anchor (attrs : list (str * str)) : Tag :=
  {| tag_name := lit "a"; tag_attrs := list_to_map attrs |}.

Definition gallery : Soup :=
  [ img [(lit "src", lit "/img/a.png")];
    anchor [(lit "href", lit "b.jpg")];
    {| tag_name := lit "p"; tag_attrs := ∅ |};
    img [(lit "src", lit "/c.GIF")];
    anchor [(lit "href", lit "https://other.org/d.bmp")];
    anchor [(lit "href", lit "/about.html")];
    img [(lit "src", lit "//cdn.site.com/e.webp")] ].

Definition parse (b : bytes) : Soup :=
  if bool_decide (b = gallery_html) then gallery else [].

(** The runtime of the bench; the operating system refuses the paths
    [refused] picks, and a write to a path [cut] picks fails after that
    many bytes. *)
Definition runtime_with (refused : str -> bool) (cut : str -> option nat)
    : Runtime :=
  {| http_get := get;
     Image_open := decode;
     html_parser := parse;
     os_refuses := fun _ p => refused p;
     write_fails := fun _ p _ => cut p;
     str_lower := ascii_lower |}.

Definition runtime (refused : str -> bool) : Runtime :=
  runtime_with refused (fun _ => None).

Definition healthy : Runtime := runtime (fun _ => false).
Definition read_only : Runtime := runtime (fun _ => true).
(** Directories can be made; a file named [*.png] cannot be opened for
    writing. *)
Definition no_space : Runtime :=
  runtime (fun p => Py.endswith p (lit ".png")).
(** Every file can be opened; the write to a file named [*.png] fails
    after four bytes. *)
Definition disk_full : Runtime :=
  runtime_with (fun _ => false)
    (fun p => if Py.endswith p (lit ".png") then Some 4%nat else None).

Definition empty_world : World := {| dirs := ∅; files := ∅; log := [] |}.

(** One thread per call, each call run to its end before the next. *)
Fixpoint one_by_one (n : nat) : list action :=
  match n with
  | O => []
  | S n' => [Start 0; Finish 0] ++ one_by_one n'
  end.

Definition sequential (n : nat) : list action :=
  replicate n (Submit false) ++ [AsCompleted] ++ one_by_one n
    ++ (Yield <$> seq 0 n) ++ [Return].

(** A thread per call, all requests sent at once, and the calls finished
    and collected last first. *)
Definition last_first (n : nat) : list action :=
  replicate n (Submit true) ++ [AsCompleted] ++ (Start <$> seq 0 n)
    ++ (Finish <$> reverse (seq 0 n)) ++ (Yield <$> reverse (seq 0 n))
    ++ [Return].

(** All calls submitted, then as many started as there are threads. *)
Definition burst (n : nat) : list action :=
  replicate n (Submit true) ++ (Start <$> seq 0 (min n 10)).

Definition site : str := lit "https://site.com".

(** Twelve calls submitted, ten of them started. *)
Definition burst_state : Pool :=
  default (start_pool empty_world [])
    (run (RT := healthy) site (lit "downloads/d") (burst 12)
       (start_pool empty_world (replicate 12 (lit "x.png")))).

(** The world once the store directory [downloads/gallery] is made. *)
Definition gallery_store : World :=
  (makedirs (RT := healthy) (store_path (lit "gallery")) empty_world).2.

(** The world after the gallery page was scraped once. *)
Definition page_scraped : World :=
  default empty_world
    (snd <$> scrape_images_endpoint (RT := healthy) (sequential 5)
               page_url empty_world).

(** A store with one scraped page, one page that gave nothing, and a
    stray text file. *)
Definition store_world : World :=
  {| dirs := {[ lit "downloads"; lit "downloads/abc";
                lit "downloads/empty" ]};
     files := {[ lit "downloads/abc/a.PNG" := png_bytes;
                 lit "downloads/abc/notes.txt" := blit "notes";
                 lit "downloads/empty/notes.txt" := blit "notes" ]};
     log := [] |}.

End Bench.

(** ** Vocabulary of the further statements *)

(** A lower-case hexadecimal digit, as [hexdigest] writes them. *)
Definition is_hex_digit (c : N) : bool :=
  ((48 <=? c) && (c <=? 57)) || ((97 <=? c) && (c <=? 102)).

(** The URLs requested in a stretch of the log, in order. *)
Definition gets (l : list event) : list str :=
  omap (fun e => match e with EvGet u => Some u | _ => None end) l.

(** The files written in full in a stretch of the log, in order. *)
Definition writes (l : list event) : list (str * bytes) :=
  omap (fun e => match e with EvWrite p b => Some (p, b) | _ => None end) l.

(** The files a failed write left behind in a stretch of the log, with
    what they hold. *)
Definition partials (l : list event) : list (str * bytes) :=
  omap (fun e => match e with EvPartial p b => Some (p, b) | _ => None end) l.

(** The files [m] after the writes of [l], complete or not, the later
    write over the earlier. *)
Definition replay (m : gmap str bytes) (l : list event) : gmap str bytes :=
  foldl (fun m e => match e with
                    | EvWrite p b | EvPartial p b => <[p := b]> m
                    | _ => m
                    end)
        m l.

(** The bytes [c] are the beginning of a valid image. *)
Definition cut_image `{RT : Runtime} (c : bytes) : Prop :=
  ∃ b n, valid_image b = true ∧ c = take n b.

(** The URL and the save path of the submitted call [i]. *)
Definition url_of (s : Pool) (i : nat) : str :=
  default [] (task_url <$> futures s !! i).

Definition path_of (s : Pool) (i : nat) : str :=
  default [] (task_path <$> futures s !! i).

(** The save paths of the finished calls that returned their URL, in
    completion order. *)
Definition saved (s : Pool) : list str :=
  omap (fun e => match e.2 with
                 | Ok (Some _) => Some (path_of s e.1)
                 | _ => None
                 end) (finished s).

(** What the pool has done to the world since [w0], the world it started
    in: the log has grown by the requests of the calls taken up so far, by
    the writes of the calls that succeeded and by the cut-off writes of
    calls that failed, and by nothing else; the directories are as they
    were; the files are those of [w0] with the logged writes applied;
    every payload written in full is a valid image, and every cut-off
    file is the beginning of one, at the save path of a submitted call. *)
Record pool_effects `{RT : Runtime} (w0 : World) (s : Pool) : Prop := {
  eff_log : log (world s) = log w0 ++ new_events w0 (world s);
  eff_dirs : dirs (world s) = dirs w0;
  eff_files : files (world s) = replay (files w0) (new_events w0 (world s));
  eff_gets :
    gets (new_events w0 (world s))
    ≡ₚ url_of s <$> (running s ++ (fst <$> finished s));
  eff_writes : fst <$> writes (new_events w0 (world s)) ≡ₚ saved s;
  eff_valid :
    Forall (fun pb => valid_image pb.2 = true)
           (writes (new_events w0 (world s)));
  eff_only :
    length (new_events w0 (world s))
    = (length (gets (new_events w0 (world s)))
       + length (writes (new_events w0 (world s)))
       + length (partials (new_events w0 (world s))))%nat;
  eff_partials :
    Forall (fun pb => cut_image pb.2
                      ∧ ∃ task, task ∈ futures s ∧ pb.1 = task_path task)
           (partials (new_events w0 (world s)));
  eff_count :
    (length (writes (new_events w0 (world s)))
     + length (partials (new_events w0 (world s)))
     ≤ length (finished s))%nat
}.

(** ** More of the test bench *)

Module Fixtures.

(** A network that answers every request with the gallery page. *)
Definition mirror : Runtime :=
  {| http_get := fun _ _ =>
       Ok {| status_code := 200; content := Bench.gallery_html |};
     Image_open := Bench.decode;
     html_parser := Bench.parse;
     os_refuses := fun _ _ => false;
     write_fails := fun _ _ _ => None;
     str_lower := Bench.ascii_lower |}.

(** A network whose pages have no tags at all. *)
Definition blank : Runtime :=
  {| http_get := fun _ _ => Ok {| status_code := 200; content := [] |};
     Image_open := Bench.decode;
     html_parser := fun _ => [];
     os_refuses := fun _ _ => false;
     write_fails := fun _ _ _ => None;
     str_lower := Bench.ascii_lower |}.

(** A network that answers every request with a PNG image. *)
Definition png_host : Runtime :=
  {| http_get := fun _ _ =>
       Ok {| status_code := 200; content := Bench.png_bytes |};
     Image_open := Bench.decode;
     html_parser := fun _ => [];
     os_refuses := fun _ _ => false;
     write_fails := fun _ _ _ => None;
     str_lower := Bench.ascii_lower |}.

Definition http_page : str := lit "http://site.com/gallery".

(** The world after [scrape] ran on [url] in the empty world. *)
Definition scraped (RT : Runtime) (sched : list action) (url : str) : World :=
  default Bench.empty_world (snd <$> scrape sched url Bench.empty_world).

End Fixtures.

(** * Properties *)

(** ** The identity hasher *)

(** The embedding of MD5 and UTF-8 agrees with [hashlib] on the test
    vectors of RFC 1321 and on URLs with multi-byte characters. *)
Example md5_empty :
  MD5.hexdigest [] = lit "d41d8cd98f00b204e9800998ecf8427e".
Proof. vm_compute. reflexivity. Qed.

Example md5_abc :
  MD5.hexdigest (Bench.blit "abc") = lit "900150983cd24fb0d6963f7d28e17f72".
Proof. vm_compute. reflexivity. Qed.

Example md5_two_blocks :
  MD5.hexdigest (replicate 64 "a"%byte)
  = lit "014842d480b571495a4a0363793f7367".
Proof. vm_compute. reflexivity. Qed.

Example sanitize_url_gallery :
  sanitize_url Bench.page_url = Ok (lit "229442d1a65f7a06b993519ba8d68246").
Proof. vm_compute. reflexivity. Qed.

(** U+20AC takes three bytes, U+1F600 four. *)
Example sanitize_url_euro :
  sanitize_url (lit "https://site.com/" ++ [0x20AC])
  = Ok (lit "3300630eb9e7d960fb87cd581d5e5550").
Proof. vm_compute. reflexivity. Qed.

Example sanitize_url_emoji :
  sanitize_url (lit "https://site.com/" ++ [0x1F600])
  = Ok (lit "87fbdf34e314cf2fd8c0ff1b3d32686e").
Proof. vm_compute. reflexivity. Qed.

Example sanitize_url_surrogate :
  sanitize_url [0xD800] = Raise UnicodeEncodeError.
Proof. reflexivity. Qed.

(** The digest is a function of the string alone: equal URLs have equal
    identities, and the identity is thirty-two hexadecimal digits. *)
Lemma sanitize_url_length (url hashed_dir : str) :
  sanitize_url url = Ok hashed_dir → length hashed_dir = 32%nat.
Proof.
  unfold sanitize_url, MD5.hexdigest, MD5.digest.
  destruct (encode url) as [b|]; [|done]. intros [= <-].
  destruct (foldl _ _ _) as [[[a b'] c] d]. reflexivity.
Qed.

(** ** The URL normalizer *)

Lemma startswith_app (p s : str) : Py.startswith (p ++ s) p = true.
Proof.
  induction p as [|a p IH]; simpl; [done|].
  by rewrite N.eqb_refl, IH.
Qed.

Lemma startswith_spec (s p : str) :
  Py.startswith s p = true ↔ ∃ rest, s = p ++ rest.
Proof.
  split.
  - revert s. induction p as [|a p IH]; intros s H; simpl in *.
    + by exists s.
    + destruct s as [|b s]; [done|].
      apply andb_true_iff in H as [Hab Hs].
      apply N.eqb_eq in Hab as ->.
      destruct (IH _ Hs) as [rest ->]. by exists rest.
  - intros [rest ->]. apply startswith_app.
Qed.

(** C10.  The absolute-URL check of [resolve_url] is a test on the text:
    every reference that begins with the four characters [http] is
    returned as it is, whatever the base, also when it is a path-relative
    name such as [httpfoo.png]. *)
Theorem resolve_url_http_prefix_unchanged (url base_url : str) :
  Py.startswith url (lit "http") = true →
  resolve_url url base_url = url.
Proof.
  intros H. unfold resolve_url, Py.startswith_any. cbn [existsb].
  by rewrite H.
Qed.

Lemma resolve_url_http_prefix_unchanged_witness :
  Py.startswith (lit "httpfoo.png") (lit "http") = true
  ∧ resolve_url (lit "httpfoo.png") (lit "https://site.com/x/")
    = lit "httpfoo.png".
Proof.
  split; [reflexivity|].
  apply (resolve_url_http_prefix_unchanged (lit "httpfoo.png")).
  reflexivity.
Defined.

(** C2, as the code has it.  Three rows of the resolution table hold as
    written.  A root-relative reference is joined to the whole base
    string, path included: against [https://site.com/x/y] the reference
    [/img/a.png] gives [https://site.com/x/y/img/a.png]; it gives
    [https://site.com/img/a.png] against the base [https://site.com]. *)
Theorem resolve_url_table :
  resolve_url (lit "//cdn.example.com/a.png") (lit "https://site.com/x")
    = lit "https://cdn.example.com/a.png"
  ∧ resolve_url (lit "/img/a.png") (lit "https://site.com/x/y")
    = lit "https://site.com/x/y/img/a.png"
  ∧ resolve_url (lit "/img/a.png") (lit "https://site.com")
    = lit "https://site.com/img/a.png"
  ∧ resolve_url (lit "a.png") (lit "https://site.com/x/")
    = lit "https://site.com/x/a.png"
  ∧ resolve_url (lit "https://cdn.com/a.png") (lit "https://site.com")
    = lit "https://cdn.com/a.png"
  ∧ (∀ base_url,
       resolve_url (lit "/img/a.png") base_url
       = Py.rstrip slash base_url ++ lit "/img/a.png").
Proof. repeat split; reflexivity. Qed.

(** C2, as the table states it, fails on its second row. *)
Lemma resolve_url_root_relative_keeps_base_path :
  resolve_url (lit "/img/a.png") (lit "https://site.com/x/y")
  ≠ lit "https://site.com/img/a.png".
Proof. vm_compute. discriminate. Qed.

(** ** File names *)

Lemma strip_query_inside (q : str) :
  newline ∉ q → strip_query_from true q = [].
Proof.
  induction q as [|c q IH]; intros H; simpl; [done|].
  destruct (N.eqb_spec c newline) as [->|_].
  - exfalso. apply H. left.
  - apply IH. intros Hq. apply H. by right.
Qed.

Lemma strip_query_app (name q : str) :
  question ∉ name → newline ∉ q →
  strip_query (name ++ question :: q) = name.
Proof.
  intros Hn Hq. unfold strip_query.
  induction name as [|c name IH]; simpl.
  - by apply strip_query_inside.
  - destruct (N.eqb_spec c question) as [->|_].
    + exfalso. apply Hn. left.
    + f_equal. apply IH. intros H. apply Hn. by right.
Qed.

Lemma rev_tail_name_id (r : str) :
  slash ∉ r → os_path.rev_tail_name r = r.
Proof.
  induction r as [|c r IH]; intros H; simpl; [done|].
  destruct (N.eqb_spec c slash) as [->|_].
  - exfalso. apply H. left.
  - f_equal. apply IH. intros Hr. apply H. by right.
Qed.

Lemma basename_id (name : str) :
  slash ∉ name → os_path.basename name = name.
Proof.
  intros H. unfold os_path.basename.
  rewrite rev_tail_name_id; [apply rev_involutive|].
  intros Hin. apply H, list_elem_of_In, in_rev. by apply list_elem_of_In.
Qed.

(** C5, as the code has it.  [sanitize_image_name] drops the query string
    and turns every character outside [[A-Za-z0-9\-.]] into an
    underscore, one for one: [photo.jpg?size=large&v=2] gives
    [photo.jpg], and [w] U+00EB [ird name!.png] gives [w_ird_name_.png]. *)
Theorem sanitize_image_name_spec :
  (∀ name query : str,
     question ∉ name → slash ∉ name → newline ∉ query →
     sanitize_image_name (name ++ question :: query) = replace_invalid name)
  ∧ (∀ name : str,
       length (replace_invalid name) = length name
       ∧ ∀ (i : nat) (c : N), name !! i = Some c →
           replace_invalid name !! i
           = Some (if valid_name_char c then c else underscore))
  ∧ sanitize_image_name (lit "photo.jpg?size=large&v=2") = lit "photo.jpg"
  ∧ sanitize_image_name (lit "w" ++ [235] ++ lit "ird name!.png")
    = lit "w_ird_name_.png".
Proof.
  split; [|split; [|split; reflexivity]].
  - intros name query Hq Hs Hn. unfold sanitize_image_name.
    rewrite strip_query_app by done. by rewrite basename_id.
  - intros name. unfold replace_invalid. split.
    + apply length_map.
    + intros i c Hi. change (@List.map N N) with (@fmap list _ N N).
      by rewrite list_lookup_fmap, Hi.
Qed.

Lemma sanitize_image_name_spec_witness :
  sanitize_image_name (lit "photo.jpg" ++ question :: lit "size=large&v=2")
  = replace_invalid (lit "photo.jpg").
Proof.
  apply (proj1 sanitize_image_name_spec);
    vm_compute; intros H; by repeat (inversion H as [|? ? ? H']; clear H; rename H' into H).
Defined.

(** C5, as stated, fails on its second example: the accented letter is
    one character and becomes one underscore, with no [e] after it. *)
Lemma sanitize_image_name_accent :
  sanitize_image_name (lit "w" ++ [235] ++ lit "ird name!.png")
  ≠ lit "w_eird_name_.png".
Proof. vm_compute. discriminate. Qed.

(** ** The fetch-validate worker *)

Ltac unfold_M :=
  unfold try_except, mbind, M_bind, bind, mret, M_ret, ret, raise, lift
    in *.

Section Worker.

Context `{RT : Runtime}.

Lemma new_events_app (w w' : World) (l : list event) :
  log w' = log w ++ l → new_events w w' = l.
Proof. intros H. unfold new_events. rewrite H. apply drop_app_length. Qed.

(** The worker, case by case on what the world answers. *)
Lemma download_image_if_valid_cases (image_url save_path : str) (w : World) :
  let w1 := record (EvGet image_url) w in
  download_image_if_valid image_url save_path w =
    match fetched (http_get (log w) image_url) with
    | Some b =>
        if valid_image b then
          match open_wb_write save_path b w1 with
          | (Ok _, w2) => (Ok (Some image_url), w2)
          | (Raise _, w2) => (Ok None, w2)
          end
        else (Ok None, w1)
    | None => (Ok None, w1)
    end.
Proof.
  unfold download_image_if_valid, validate_and_save, session_get,
    raise_for_status, fetched, valid_image. unfold_M. simpl.
  destruct (http_get (log w) image_url) as [r|e]; [|done].
  destruct ((400 <=? status_code r)%Z && (status_code r <? 600)%Z); [done|].
  destruct (Image_open (content r)) as [fmt|e]; [|done].
  destruct (format_accepted fmt); [|done].
  by destruct (open_wb_write save_path (content r) _) as [[[]|e] w2].
Qed.

(** The same holds for a worker of the pool, whose request was sent
    earlier: sending the request and finishing is the whole call. *)
Lemma download_image_if_valid_split (image_url save_path : str) (w : World) :
  download_image_if_valid image_url save_path w =
    let '(r, w1) := session_get image_url w in
    match r with
    | Ok response => finish_download image_url save_path (Ok response) w1
    | Raise e => finish_download image_url save_path (Raise e) w1
    end.
Proof.
  unfold download_image_if_valid, finish_download, session_get.
  unfold_M. simpl. by destruct (http_get (log w) image_url).
Qed.

(** What a pool thread does with the answer [r] to its request. *)
Lemma finish_download_spec (image_url save_path : str)
    (r : result Response) (w : World) :
  finish_download image_url save_path r w =
    match fetched r with
    | Some b =>
        if valid_image b then
          match open_wb_write save_path b w with
          | (Ok _, w2) => (Ok (Some image_url), w2)
          | (Raise _, w2) => (Ok None, w2)
          end
        else (Ok None, w)
    | None => (Ok None, w)
    end.
Proof.
  unfold finish_download, validate_and_save, raise_for_status, fetched,
    valid_image. unfold_M. simpl.
  destruct r as [r|e]; [|done].
  destruct ((400 <=? status_code r)%Z && (status_code r <? 600)%Z); [done|].
  destruct (Image_open (content r)) as [fmt|e]; [|done].
  destruct (format_accepted fmt); [|done].
  by destruct (open_wb_write save_path (content r) _) as [[[]|e] w2].
Qed.

(** The three ways [open_wb_write] can go: [open] raises and nothing has
    happened; the write fails and leaves the beginning of the payload; the
    payload is written. *)
Lemma open_wb_write_cases (p : str) (b : bytes) (w : World) :
  (∃ e, open_wb_write p b w = (Raise e, w))
  ∨ (∃ e n, open_wb_write p b w =
      (Raise e, {| dirs := dirs w; files := <[p := take n b]> (files w);
                   log := log w ++ [EvPartial p (take n b)] |}))
  ∨ open_wb_write p b w =
      (Ok tt, {| dirs := dirs w; files := <[p := b]> (files w);
                 log := log w ++ [EvWrite p b] |}).
Proof.
  unfold open_wb_write.
  destruct (os_refuses (log w) p); [left; by eexists|].
  destruct (names_no_file p || isdir w p); [left; by eexists|].
  destruct (Py.truthy (dirname p) && negb (isdir w (dirname p)));
    [left; by eexists|].
  destruct (write_fails (log w) p b) as [n|];
    [right; left; by eexists _, n|by right; right].
Qed.


End Worker.




(** An HTML page served at a [.jpg] address is not written; nor is an
    image PIL can read whose format is not in the list. *)
Example html_at_jpg_address :
  download_image_if_valid (RT := Bench.healthy) (lit "https://site.com/b.jpg")
    (lit "downloads/abc/b.jpg") Bench.store_world
  = (Ok None, record (EvGet (lit "https://site.com/b.jpg")) Bench.store_world).
Proof. vm_compute. reflexivity. Qed.

Example tiff_at_png_address :
  valid_image (RT := Bench.healthy) Bench.tiff_bytes = false
  ∧ download_image_if_valid (RT := Bench.healthy)
      (lit "https://site.com/scan.png") (lit "downloads/abc/scan.png")
      Bench.store_world
    = (Ok None,
       record (EvGet (lit "https://site.com/scan.png")) Bench.store_world).
Proof. vm_compute. split; reflexivity. Qed.

(** ** The worker pool *)

Section PoolFacts.

Context `{RT : Runtime}.
Variables base_url local_download_path : str.

Local Abbreviation step := (step base_url local_download_path).
Local Abbreviation run := (run base_url local_download_path).
Local Abbreviation task_of := (submit_task base_url local_download_path).

Lemma truthy_app_cons (a b : str) (c : N) : Py.truthy (a ++ c :: b) = true.
Proof. by destruct a. Qed.

Lemma resolve_url_truthy (url base : str) :
  Py.truthy (resolve_url url base) = true.
Proof.
  unfold resolve_url.
  destruct (Py.startswith_any url [lit "http"; lit "https"]) eqn:E;
    cbn [negb].
  - destruct url; [by vm_compute in E|done].
  - destruct (Py.startswith url (lit "//")); [done|].
    destruct (Py.startswith url (lit "/")); apply truthy_app_cons.
Qed.

(** The worker never raises: it returns [None] or the URL it was given,
    and leaves the directories as they were. *)
Lemma finish_download_cases (u p : str) (r : result Response) (w : World) :
  let out := finish_download u p r w in
  (out.1 = Ok None ∨ out.1 = Ok (Some u)) ∧ dirs out.2 = dirs w.
Proof.
  unfold finish_download, validate_and_save, raise_for_status.
  unfold_M. simpl.
  destruct r as [r|e]; [|by auto].
  destruct ((400 <=? status_code r)%Z && (status_code r <? 600)%Z);
    [by auto|].
  destruct (Image_open (content r)) as [fmt|e]; [|by auto].
  destruct (format_accepted fmt); [|by auto].
  destruct (open_wb_write_cases p (content r) w)
    as [[e ->]|[(e & n & ->)| ->]]; by auto.
Qed.

(** *** Threads and the calls they run *)

Lemma omap_insert_busy (ths : list (option (nat * result Response)))
    (t i : nat) (r : result Response) :
  ths !! t = Some None →
  omap (fun th => fst <$> th) (<[t := Some (i, r)]> ths)
  ≡ₚ i :: omap (fun th => fst <$> th) ths.
Proof.
  intros H.
  rewrite <- (take_drop_middle ths t None H) at 2.
  rewrite insert_take_drop by (by eapply lookup_lt_Some).
  rewrite !omap_app. simpl. by rewrite Permutation_middle.
Qed.

Lemma omap_insert_idle (ths : list (option (nat * result Response)))
    (t i : nat) (r : result Response) :
  ths !! t = Some (Some (i, r)) →
  omap (fun th => fst <$> th) ths
  ≡ₚ i :: omap (fun th => fst <$> th) (<[t := None]> ths).
Proof.
  intros H.
  rewrite <- (take_drop_middle ths t _ H) at 1.
  rewrite insert_take_drop by (by eapply lookup_lt_Some).
  rewrite !omap_app. simpl. by rewrite Permutation_middle.
Qed.

Lemma all_idle_running (ths : list (option (nat * result Response))) :
  forallb is_idle ths = true ↔ omap (fun th => fst <$> th) ths = [].
Proof.
  induction ths as [|[[i r]|] ths IH]; simpl; [done| |done].
  split; intros; discriminate.
Qed.

Lemma in_flight_running (s : Pool) : in_flight s = length (running s).
Proof.
  unfold in_flight, running.
  induction (threads s) as [|th ths IH]; [done|].
  rewrite filter_cons. destruct th as [[i r]|]; simpl; by rewrite IH.
Qed.

Lemma adjust_thread_count_length (spawn : bool)
    (ths : list (option (nat * result Response))) :
  (length ths ≤ max_workers →
   length (adjust_thread_count spawn ths) ≤ max_workers)%nat.
Proof.
  intros H. unfold adjust_thread_count.
  destruct (spawn || bool_decide (ths = [])); simpl; [|done].
  destruct (Nat.ltb_spec (length ths) max_workers); [|done].
  rewrite length_app. simpl. lia.
Qed.

Lemma adjust_thread_count_running (spawn : bool)
    (ths : list (option (nat * result Response))) :
  omap (fun th => fst <$> th) (adjust_thread_count spawn ths)
  = omap (fun th => fst <$> th) ths.
Proof.
  unfold adjust_thread_count.
  destruct ((spawn || bool_decide (ths = []))
            && (length ths <? max_workers)%nat); [|done].
  rewrite omap_app. simpl. apply app_nil_r.
Qed.

Lemma adjust_thread_count_nonempty (spawn : bool)
    (ths : list (option (nat * result Response))) :
  adjust_thread_count spawn ths ≠ [].
Proof.
  unfold adjust_thread_count. destruct ths as [|th ths].
  - rewrite orb_true_r. simpl. done.
  - destruct (_ && _); done.
Qed.

(** *** Finished futures *)

Lemma future_result_Some (fin : list (nat * result (option str)))
    (i : nat) (o : result (option str)) :
  future_result fin i = Some o → (i, o) ∈ fin.
Proof.
  unfold future_result. intros H.
  destruct (find _ fin) as [[j o']|] eqn:E; [|done].
  simpl in H. injection H as <-.
  apply find_some in E as [Hin Hj].
  apply bool_decide_eq_true in Hj. simpl in Hj. subst j.
  by apply list_elem_of_In.
Qed.

Lemma future_result_is_Some (fin : list (nat * result (option str)))
    (i : nat) :
  i ∈ fst <$> fin → is_Some (future_result fin i).
Proof.
  unfold future_result.
  induction fin as [|[j o] fin IH]; simpl; [by intros ?%elem_of_nil|].
  intros H. case_bool_decide as Hj; simpl in *; [by eexists|].
  apply IH. apply elem_of_cons in H as [->|H]; done.
Qed.

Lemma future_result_app (fin more : list (nat * result (option str)))
    (i : nat) :
  i ∈ fst <$> fin → future_result (fin ++ more) i = future_result fin i.
Proof.
  unfold future_result.
  induction fin as [|[j o] fin IH]; simpl; [by intros ?%elem_of_nil|].
  intros H. case_bool_decide as Hj; simpl in *; [done|].
  apply IH. apply elem_of_cons in H as [->|H]; done.
Qed.

Lemma future_result_fresh (fin more : list (nat * result (option str)))
    (i : nat) (o : result (option str)) :
  i ∉ fst <$> fin → future_result (fin ++ (i, o) :: more) i = Some o.
Proof.
  unfold future_result.
  induction fin as [|[j o'] fin IH]; simpl; intros H.
  - by rewrite bool_decide_eq_true_2.
  - apply not_elem_of_cons in H as [Hij Hfin]. simpl in Hij.
    rewrite bool_decide_eq_false_2 by done. by apply IH.
Qed.

Lemma collect_app (fin : list (nat * result (option str)))
    (ys zs : list nat) :
  collect fin (ys ++ zs) = collect fin ys ++ collect fin zs.
Proof. unfold collect. apply bind_app. Qed.

Lemma collect_more (fin more : list (nat * result (option str)))
    (ys : list nat) :
  ys ⊆ fst <$> fin → collect (fin ++ more) ys = collect fin ys.
Proof.
  intros H. unfold collect.
  induction ys as [|y ys IH]; [done|].
  rewrite !bind_cons, IH by set_solver.
  rewrite future_result_app; [done|]. apply H. left.
Qed.

Lemma collect_all (pre suf : list (nat * result (option str))) :
  NoDup (fst <$> (pre ++ suf)) →
  collect (pre ++ suf) (fst <$> suf) = successes suf.
Proof.
  revert pre. induction suf as [|[i o] suf IH]; intros pre H; [done|].
  rewrite fmap_cons. unfold collect, successes in *.
  rewrite !bind_cons. simpl.
  rewrite future_result_fresh.
  2:{ rewrite fmap_app, fmap_cons in H.
      apply NoDup_app in H as (_ & H & _). intros Hi.
      apply (H i Hi). left. }
  f_equal.
  specialize (IH (pre ++ [(i, o)])).
  rewrite <- app_assoc in IH. apply IH, H.
Qed.

(** *** The invariant *)

Variable urls : list str.

Local Abbreviation inv := (pool_inv base_url local_download_path urls).

Lemma inv_start (w : World) : inv (start_pool w urls).
Proof.
  split; simpl; try done.
  - unfold max_workers. lia.
  - intros i o H. by apply elem_of_nil in H.
Qed.

Lemma inv_call_lt (s : Pool) (i : nat) :
  inv s → i ∈ work_queue s ++ running s ++ (fst <$> finished s) →
  (i < length (futures s))%nat.
Proof.
  intros Hs Hi. rewrite (inv_calls _ _ _ _ Hs) in Hi.
  apply elem_of_seq in Hi. lia.
Qed.

Lemma inv_calls_NoDup (s : Pool) :
  inv s → NoDup (work_queue s ++ running s ++ (fst <$> finished s)).
Proof. intros Hs. rewrite (inv_calls _ _ _ _ Hs). apply NoDup_seq. Qed.

Lemma inv_finished_NoDup (s : Pool) : inv s → NoDup (fst <$> finished s).
Proof.
  intros Hs. pose proof (inv_calls_NoDup s Hs) as H.
  apply NoDup_app in H as (_ & _ & H). by apply NoDup_app in H as (_ & _ & H).
Qed.

Lemma inv_submit (s : Pool) (spawn : bool) (url : str) (todo : list str) :
  inv s → main s = Submitting (url :: todo) →
  inv {| world := world s;
         futures := futures s ++ [task_of url];
         work_queue := work_queue s ++ [length (futures s)];
         threads := adjust_thread_count spawn (threads s);
         finished := finished s;
         main := Submitting todo |}.
Proof.
  intros [H1 H2 H3 H4 H5 H6] Hm. rewrite Hm in H6.
  split; simpl.
  - by apply adjust_thread_count_length.
  - intros _. apply adjust_thread_count_nonempty.
  - unfold running in *. simpl. rewrite adjust_thread_count_running.
    rewrite length_app. simpl. rewrite Nat.add_1_r, seq_S. simpl.
    rewrite <- H3, <- !app_assoc.
    apply Permutation_app_head. simpl.
    rewrite app_assoc. apply Permutation_cons_append.
  - intros i o Hi. destruct (H4 i o Hi) as (task & Ht & Ho).
    exists task. split; [|done]. by apply lookup_app_l_Some.
  - apply Forall_app. split; [done|].
    apply Forall_singleton. apply resolve_url_truthy.
  - rewrite H6, fmap_cons, <- app_assoc. done.
Qed.

Lemma inv_as_completed (s : Pool) :
  inv s → main s = Submitting [] →
  inv {| world := world s; futures := futures s;
         work_queue := work_queue s; threads := threads s;
         finished := finished s; main := Collecting [] [] |}.
Proof.
  intros [H1 H2 H3 H4 H5 H6] Hm. rewrite Hm in H6.
  split; simpl; try done.
  split_and!; try done.
  - by rewrite H6, app_nil_r.
  - constructor.
  - set_solver.
Qed.

Lemma inv_start_call (s : Pool) (t i : nat) (queue : list nat)
    (r : result Response) (w : World) :
  inv s → threads s !! t = Some None → work_queue s = i :: queue →
  inv {| world := w; futures := futures s; work_queue := queue;
         threads := <[t := Some (i, r)]> (threads s);
         finished := finished s; main := main s |}.
Proof.
  intros [H1 H2 H3 H4 H5 H6] Ht Hq.
  split; simpl; try done.
  - by rewrite length_insert.
  - intros Hf Hn. apply (f_equal length) in Hn.
    rewrite length_insert in Hn. simpl in Hn.
    apply lookup_lt_Some in Ht. lia.
  - unfold running in *. simpl.
    rewrite omap_insert_busy by done. rewrite <- H3, Hq. simpl.
    symmetry. apply Permutation_middle.
  - destruct (main s); try done.
    destruct H6 as (? & Hqe & _). by rewrite Hqe in Hq.
Qed.

Lemma inv_finish_call (s : Pool) (t i : nat) (r : result Response)
    (task : Task) (o : result (option str)) (w : World) :
  inv s → threads s !! t = Some (Some (i, r)) →
  futures s !! i = Some task →
  (o = Ok None ∨ o = Ok (Some (task_url task))) →
  inv {| world := w; futures := futures s; work_queue := work_queue s;
         threads := <[t := None]> (threads s);
         finished := finished s ++ [(i, o)]; main := main s |}.
Proof.
  intros [H1 H2 H3 H4 H5 H6] Ht Hi Ho.
  split; simpl; try done.
  - by rewrite length_insert.
  - intros Hf Hn. apply (f_equal length) in Hn.
    rewrite length_insert in Hn. simpl in Hn.
    apply lookup_lt_Some in Ht. lia.
  - unfold running in *. simpl. rewrite <- H3.
    rewrite (omap_insert_idle (threads s) t i r Ht), fmap_app. simpl.
    apply Permutation_app_head. simpl.
    rewrite app_assoc. symmetry. apply Permutation_cons_append.
  - intros j o' Hj. apply elem_of_app in Hj as [Hj|Hj]; [by apply H4|].
    apply list_elem_of_singleton in Hj as [= -> ->]. by exists task.
  - destruct (main s) as [todo|ys imgs|imgs|e]; try done.
    + destruct H6 as (Hf & Hnd & Hsub & Himgs). split_and!; try done.
      * rewrite fmap_app. intros x Hx. apply elem_of_app. left.
        by apply Hsub.
      * by rewrite collect_more.
    + destruct H6 as (_ & _ & Hr & _). unfold running in Hr.
      pose proof (omap_insert_idle (threads s) t i r Ht) as Hp.
      rewrite Hr in Hp. by apply Permutation_nil_cons in Hp.
Qed.

Lemma inv_yield (s : Pool) (i : nat) (ys : list nat) (imgs : list str)
    (o : result (option str)) :
  inv s → main s = Collecting ys imgs → i ∉ ys →
  future_result (finished s) i = Some o →
  ∃ r, o = Ok r
    ∧ inv {| world := world s; futures := futures s;
             work_queue := work_queue s; threads := threads s;
             finished := finished s;
             main := Collecting (ys ++ [i]) (append_if_truthy imgs r) |}.
Proof.
  intros [H1 H2 H3 H4 H5 H6] Hm Hi Ho. rewrite Hm in H6.
  destruct H6 as (Hf & Hnd & Hsub & Himgs).
  pose proof (future_result_Some _ _ _ Ho) as Hin.
  destruct (H4 i o Hin) as (task & Ht & Hcase).
  assert (Htruthy : Py.truthy (task_url task) = true).
  { by eapply (Forall_lookup_1 _ _ _ _ H5). }
  assert (Hr : ∃ r, o = Ok r ∧ append_if_truthy imgs r
                     = imgs ++ collect (finished s) [i]).
  { unfold collect. rewrite bind_cons, Ho. simpl.
    destruct Hcase as [->| ->]; eexists; (split; [done|]); simpl.
    - by rewrite app_nil_r.
    - by rewrite Htruthy. }
  destruct Hr as (r & -> & Hr). exists r. split; [done|].
  split; simpl; try done.
  split_and!; try done.
  - apply NoDup_app. split_and!; [done| |apply NoDup_singleton].
    intros x Hx ->%list_elem_of_singleton. done.
  - intros x [Hx| ->%list_elem_of_singleton]%elem_of_app; [by apply Hsub|].
    apply list_elem_of_fmap. by exists (i, Ok r).
  - by rewrite Hr, collect_app, Himgs.
Qed.

Lemma inv_return (s : Pool) (ys : list nat) (imgs : list str) :
  inv s → main s = Collecting ys imgs →
  length ys = length (futures s) → forallb is_idle (threads s) = true →
  inv {| world := world s; futures := futures s;
         work_queue := work_queue s; threads := threads s;
         finished := finished s; main := Returned imgs |}.
Proof.
  intros Hs Hm Hlen Hidle.
  pose proof (inv_finished_NoDup s Hs) as HndF.
  destruct Hs as [H1 H2 H3 H4 H5 H6]. rewrite Hm in H6.
  destruct H6 as (Hf & Hnd & Hsub & Himgs).
  apply all_idle_running in Hidle. unfold running in *.
  rewrite Hidle in H3. simpl in H3.
  pose proof (Permutation_length H3) as Hl.
  rewrite length_app, length_seq in Hl.
  assert (Hperm : ys ≡ₚ fst <$> finished s).
  { apply submseteq_length_Permutation; [by apply NoDup_submseteq|lia]. }
  assert (Hq : work_queue s = []).
  { apply Permutation_length in Hperm. apply length_zero_iff_nil. lia. }
  split; unfold running; simpl; try done.
  - rewrite Hidle, Hq. simpl. by rewrite Hq in H3.
  - split_and!; try done.
    rewrite Himgs. unfold collect. rewrite Hperm.
    pose proof (collect_all [] (finished s)) as Hc. simpl in Hc.
    unfold collect in Hc. by rewrite Hc.
Qed.

(** Every step keeps the invariant. *)
Lemma step_inv (a : action) (s s' : Pool) :
  inv s → step a s = Some s' → inv s'.
Proof.
  intros Hs H. destruct a as [spawn| |t|t|i|]; simpl in H.
  - destruct (main s) as [[|url todo]| | |] eqn:Hm; try done.
    injection H as <-. by apply inv_submit.
  - destruct (main s) as [[|url todo]| | |] eqn:Hm; try done.
    injection H as <-. by apply inv_as_completed.
  - destruct (threads s !! t) as [[|]|] eqn:Ht; try done.
    destruct (work_queue s) as [|i queue] eqn:Hq; try done.
    destruct (futures s !! i) as [task|] eqn:Hi; try done. simpl in H.
    injection H as <-. by apply inv_start_call.
  - destruct (threads s !! t) as [[[i r]|]|] eqn:Ht; try done.
    destruct (futures s !! i) as [task|] eqn:Hi; try done. simpl in H.
    destruct (finish_download _ _ r (world s)) as [o w] eqn:Hd.
    injection H as <-.
    eapply inv_finish_call; try done.
    pose proof (finish_download_cases (task_url task) (task_path task)
                  r (world s)) as [Ho _].
    by rewrite Hd in Ho.
  - destruct (main s) as [|ys imgs| |] eqn:Hm; try done.
    case_bool_decide as Hi; [done|].
    destruct (future_result (finished s) i) as [o|] eqn:Ho; try done.
    simpl in H. injection H as <-.
    by destruct (inv_yield s i ys imgs o Hs Hm Hi Ho) as (r & -> & Hinv).
  - destruct (main s) as [|ys imgs| |] eqn:Hm; try done.
    destruct (bool_decide _ && _) eqn:Hg; [|done].
    apply andb_true_iff in Hg as [Hlen%bool_decide_eq_true Hidle].
    injection H as <-. by apply (inv_return s ys imgs).
Qed.

Lemma run_inv (sched : list action) (s s' : Pool) :
  inv s → run sched s = Some s' → inv s'.
Proof.
  revert s. induction sched as [|a sched IH]; intros s Hs H; simpl in H.
  - by injection H as <-.
  - destruct (step a s) as [s1|] eqn:Ha; [|done].
    simpl in H. eapply IH; [|done]. by eapply step_inv.
Qed.

(** *** What the threads do *)

Lemma inv_future_url (s : Pool) (i : nat) (task : Task) :
  inv s → futures s !! i = Some task →
  ∃ url, urls !! i = Some url ∧ task = task_of url.
Proof.
  intros Hs Hi.
  assert (Hall : (task_of <$> urls) !! i = Some task).
  { pose proof (inv_main _ _ _ _ Hs) as Hm.
    destruct (main s) as [todo|ys imgs|imgs|e].
    - rewrite Hm. by apply lookup_app_l_Some.
    - destruct Hm as [<- _]. done.
    - destruct Hm as [<- _]. done.
    - done. }
  rewrite list_lookup_fmap in Hall.
  destruct (urls !! i) as [url|]; [|done].
  injection Hall as <-. by exists url.
Qed.

(** A thread that starts sends the GET of the oldest queued call. *)
Lemma step_start_request (s s' : Pool) (t : nat) :
  inv s → step (Start t) s = Some s' →
  ∃ i queue url,
    work_queue s = i :: queue ∧ urls !! i = Some url
    ∧ threads s' !! t
      = Some (Some (i, http_get (log (world s)) (resolve_url url base_url)))
    ∧ new_events (world s) (world s') = [EvGet (resolve_url url base_url)].
Proof.
  intros Hs H. simpl in H.
  destruct (threads s !! t) as [[|]|] eqn:Ht; try done.
  destruct (work_queue s) as [|i queue] eqn:Hq; try done.
  destruct (futures s !! i) as [task|] eqn:Hi; try done. simpl in H.
  injection H as <-.
  destruct (inv_future_url s i task Hs Hi) as (url & Hurl & ->).
  exists i, queue, url. simpl. split_and!; try done.
  - rewrite list_lookup_insert_eq; [done|]. by eapply lookup_lt_Some.
  - by apply new_events_app.
Qed.

(** A thread that finishes records the URL of its call when the call
    succeeds, and [None] when it does not. *)
Lemma step_finish_outcome (s s' : Pool) (t i : nat) (r : result Response) :
  inv s → threads s !! t = Some (Some (i, r)) →
  step (Finish t) s = Some s' →
  ∃ url o,
    urls !! i = Some url ∧ finished s' = finished s ++ [(i, o)]
    ∧ (call_succeeds (task_path (task_of url)) r (world s) →
       o = Ok (Some (resolve_url url base_url)))
    ∧ (¬ call_succeeds (task_path (task_of url)) r (world s) → o = Ok None).
Proof.
  intros Hs Ht H. simpl in H. rewrite Ht in H.
  destruct (futures s !! i) as [task|] eqn:Hi; try done. simpl in H.
  destruct (inv_future_url s i task Hs Hi) as (url & Hurl & ->).
  rewrite finish_download_spec in H.
  exists url. unfold call_succeeds.
  destruct (fetched r) as [b|] eqn:Hf.
  2:{ injection H as <-. eexists. split_and!; try done.
      by intros (b & Hb & _). }
  destruct (valid_image b) eqn:Hv.
  2:{ injection H as <-. eexists. split_and!; try done.
      intros (b' & [= <-] & Hv' & _). congruence. }
  destruct (open_wb_write _ b (world s)) as [[u|e] w2] eqn:Hw;
    injection H as <-; eexists; (split_and!; [done|done|..]).
  - done.
  - intros Hno. exfalso. apply Hno. exists b.
    split_and!; [done|done|]. rewrite Hw. by destruct u.
  - intros (b' & [= <-] & _ & Hw'). by rewrite Hw in Hw'.
  - done.
Qed.

(** *** Progress *)

Lemma running_thread (ths : list (option (nat * result Response)))
    (i : nat) :
  i ∈ omap (fun th => fst <$> th) ths →
  ∃ t r, ths !! t = Some (Some (i, r)).
Proof.
  intros ([[j r]|] & Hin & Hj)%list_elem_of_omap; [|done].
  simpl in Hj. injection Hj as ->.
  apply list_elem_of_lookup in Hin as [t Ht]. by exists t, r.
Qed.

Lemma inv_yielded_le (s : Pool) (ys : list nat) (imgs : list str) :
  inv s → main s = Collecting ys imgs →
  (length ys ≤ length (fst <$> finished s)
   ∧ length (fst <$> finished s) ≤ length (futures s))%nat.
Proof.
  intros Hs Hm. pose proof (inv_main _ _ _ _ Hs) as H. rewrite Hm in H.
  destruct H as (_ & Hnd & Hsub & _). split.
  - apply submseteq_length. by apply NoDup_submseteq.
  - pose proof (Permutation_length (inv_calls _ _ _ _ Hs)) as Hl.
    rewrite !length_app, length_seq in Hl. lia.
Qed.

(** A pool that has not returned can take a step. *)
Lemma step_progress (s : Pool) :
  inv s → (∀ imgs, main s ≠ Returned imgs) → ∃ a s', step a s = Some s'.
Proof.
  intros Hs Hnot.
  destruct (main s) as [[|url todo]|ys imgs|imgs|e] eqn:Hm.
  - exists AsCompleted. simpl. rewrite Hm. by eexists.
  - exists (Submit false). simpl. rewrite Hm. by eexists.
  - destruct (running s) as [|i rest] eqn:Hr.
    + destruct (work_queue s) as [|i queue] eqn:Hq.
      * (* every call has finished *)
        destruct (decide (length ys = length (futures s))) as [Hlen|Hlen].
        { exists Return. simpl. rewrite Hm.
          rewrite bool_decide_eq_true_2 by done.
          apply all_idle_running in Hr. rewrite Hr. by eexists. }
        pose proof (inv_yielded_le s ys imgs Hs Hm) as [Hle1 Hle2].
        pose proof (Permutation_length (inv_calls _ _ _ _ Hs)) as Hl.
        rewrite Hq, Hr, length_seq in Hl. simpl in Hl.
        destruct (decide (Forall (fun i => i ∈ ys) (fst <$> finished s)))
          as [Hall|Hsome].
        { exfalso. apply Hlen.
          assert ((length (fst <$> finished s) ≤ length ys)%nat); [|lia].
          apply submseteq_length, NoDup_submseteq.
          - by apply inv_finished_NoDup.
          - by apply Forall_forall. }
        apply not_Forall_Exists, Exists_exists in Hsome
          as (i & Hi & Hnotin). simpl in Hnotin.
        destruct (future_result_is_Some _ _ Hi) as [o Ho].
        exists (Yield i). simpl. rewrite Hm.
        rewrite bool_decide_eq_false_2 by done. rewrite Ho. by eexists.
        apply _.
      * (* a queued call and an idle thread *)
        assert (Hi : (i < length (futures s))%nat).
        { apply (inv_call_lt s i Hs). rewrite Hq. left. }
        destruct (lookup_lt_is_Some_2 _ _ Hi) as [task Ht].
        destruct (threads s) as [|th ths] eqn:Hths.
        { exfalso. apply (inv_spawned _ _ _ _ Hs); [|done].
          intros Hf. rewrite Hf in Hi. simpl in Hi. lia. }
        assert (th = None) as ->.
        { unfold running in Hr. rewrite Hths in Hr.
          by destruct th as [[]|]. }
        exists (Start 0). simpl. rewrite Hths, Hq, Ht. simpl. by eexists.
    + (* a running call can finish *)
      assert (Hin : i ∈ running s) by (rewrite Hr; left).
      destruct (running_thread _ _ Hin) as (t & r & Ht).
      assert (Hi : (i < length (futures s))%nat).
      { apply (inv_call_lt s i Hs). set_solver. }
      destruct (lookup_lt_is_Some_2 _ _ Hi) as [task Htask].
      exists (Finish t). simpl. rewrite Ht, Htask. simpl.
      destruct (finish_download _ _ r (world s)). by eexists.
  - by destruct (Hnot imgs).
  - pose proof (inv_main _ _ _ _ Hs) as H. by rewrite Hm in H.
Qed.

(** *** Termination *)

Lemma step_steps_left (a : action) (s s' : Pool) :
  inv s → step a s = Some s' → (steps_left s' < steps_left s)%nat.
Proof.
  intros Hs H. pose proof (step_inv a s s' Hs H) as Hs'.
  destruct a as [spawn| |t|t|i|]; simpl in H.
  - destruct (main s) as [[|url todo]| | |] eqn:Hm; try done.
    injection H as <-. unfold steps_left, running. simpl.
    rewrite Hm, adjust_thread_count_running, !length_app. simpl. lia.
  - destruct (main s) as [[|url todo]| | |] eqn:Hm; try done.
    injection H as <-. unfold steps_left, running. simpl.
    rewrite Hm. simpl. lia.
  - destruct (threads s !! t) as [[|]|] eqn:Ht; try done.
    destruct (work_queue s) as [|i queue] eqn:Hq; try done.
    destruct (futures s !! i) as [task|] eqn:Hi; try done. simpl in H.
    injection H as <-. unfold steps_left, running. simpl.
    rewrite Hq. simpl.
    rewrite (Permutation_length (omap_insert_busy _ t i _ Ht)). simpl. lia.
  - destruct (threads s !! t) as [[[i r]|]|] eqn:Ht; try done.
    destruct (futures s !! i) as [task|] eqn:Hi; try done. simpl in H.
    destruct (finish_download _ _ r (world s)) as [o w] eqn:Hd.
    injection H as <-. unfold steps_left, running. simpl.
    rewrite (Permutation_length (omap_insert_idle _ t i r Ht)). simpl. lia.
  - destruct (main s) as [|ys imgs| |] eqn:Hm; try done.
    case_bool_decide as Hi; [done|].
    destruct (future_result (finished s) i) as [o|] eqn:Ho; try done.
    simpl in H. injection H as <-.
    destruct (inv_yield s i ys imgs o Hs Hm Hi Ho) as (r & -> & Hinv).
    pose proof (inv_yielded_le _ _ _ Hinv eq_refl) as [Hle1 Hle2].
    simpl in *. rewrite length_app in Hle1. simpl in Hle1.
    unfold steps_left, running. simpl. rewrite Hm, length_app. simpl. lia.
  - destruct (main s) as [|ys imgs| |] eqn:Hm; try done.
    destruct (bool_decide _ && _) eqn:Hg; [|done].
    injection H as <-. unfold steps_left, running. simpl. rewrite Hm. lia.
Qed.

Lemma run_steps_left (sched : list action) (s s' : Pool) :
  inv s → run sched s = Some s' →
  (length sched + steps_left s' ≤ steps_left s)%nat.
Proof.
  revert s. induction sched as [|a sched IH]; intros s Hs H; simpl in H.
  - injection H as <-. simpl. lia.
  - destruct (step a s) as [s1|] eqn:Ha; [|done]. simpl in H.
    pose proof (step_steps_left a s s1 Hs Ha).
    pose proof (IH s1 (step_inv a s s1 Hs Ha) H). simpl. lia.
Qed.

(** From every state the pool reaches, some schedule leads to the
    return of [scrape_images]. *)
Lemma run_complete (n : nat) (s : Pool) :
  inv s → (steps_left s ≤ n)%nat →
  ∃ sched s' imgs, run sched s = Some s' ∧ main s' = Returned imgs.
Proof.
  revert s. induction n as [|n IH]; intros s Hs Hn.
  - destruct (main s) as [todo|ys imgs|imgs|e] eqn:Hm.
    + unfold steps_left in Hn. rewrite Hm in Hn. lia.
    + unfold steps_left in Hn. rewrite Hm in Hn. lia.
    + by exists [], s, imgs.
    + pose proof (inv_main _ _ _ _ Hs) as H. by rewrite Hm in H.
  - assert (Hcase : (∃ imgs, main s = Returned imgs)
                    ∨ (∀ imgs, main s ≠ Returned imgs)).
    { destruct (main s); [right|right|left|right]; try done. by eexists. }
    destruct Hcase as [[imgs Hm]|Hnot].
    { by exists [], s, imgs. }
    destruct (step_progress s Hs Hnot) as (a & s1 & Ha).
    pose proof (step_steps_left a s s1 Hs Ha) as Hlt.
    destruct (IH s1 (step_inv a s s1 Hs Ha)) as (sched & s' & imgs & Hr & Hm);
      [lia|].
    exists (a :: sched), s', imgs. split; [|done]. simpl. by rewrite Ha.
Qed.

(** *** The directories are left alone *)

Lemma step_dirs (a : action) (s s' : Pool) :
  step a s = Some s' → dirs (world s') = dirs (world s).
Proof.
  intros H. destruct a as [spawn| |t|t|i|]; simpl in H.
  - destruct (main s) as [[|url todo]| | |]; try done. by injection H as <-.
  - destruct (main s) as [[|url todo]| | |]; try done. by injection H as <-.
  - destruct (threads s !! t) as [[|]|]; try done.
    destruct (work_queue s) as [|i queue]; try done.
    destruct (futures s !! i) as [task|]; try done. simpl in H.
    by injection H as <-.
  - destruct (threads s !! t) as [[[i r]|]|]; try done.
    destruct (futures s !! i) as [task|]; try done. simpl in H.
    pose proof (finish_download_cases (task_url task) (task_path task)
                  r (world s)) as [_ Hd].
    destruct (finish_download _ _ r (world s)) as [o w].
    by injection H as <-.
  - destruct (main s) as [|ys imgs| |]; try done.
    case_bool_decide; [done|].
    destruct (future_result (finished s) i); try done. simpl in H.
    by injection H as <-.
  - destruct (main s) as [|ys imgs| |]; try done.
    destruct (bool_decide _ && _); [|done]. by injection H as <-.
Qed.

Lemma run_dirs (sched : list action) (s s' : Pool) :
  run sched s = Some s' → dirs (world s') = dirs (world s).
Proof.
  revert s. induction sched as [|a sched IH]; intros s H; simpl in H.
  - by injection H as <-.
  - destruct (step a s) as [s1|] eqn:Ha; [|done]. simpl in H.
    rewrite (IH s1 H). by eapply step_dirs.
Qed.

End PoolFacts.

(** C9.  The pool of [scrape_images] has at most ten worker threads, and a
    thread runs one call at a time: whatever the candidates and however
    the steps of the threads interleave, no state of the run has more than
    ten fetch-validate calls in flight. *)
Theorem pool_ceiling `{RT : Runtime} (base_url local_download_path : str)
    (urls : list str) (w : World) (sched : list action) (s : Pool) :
  run base_url local_download_path sched (start_pool w urls) = Some s →
  (in_flight s ≤ 10)%nat.
Proof.
  intros H.
  pose proof (run_inv base_url local_download_path urls sched _ s
                (inv_start _ _ urls w) H) as Hs.
  pose proof (inv_threads _ _ _ _ Hs) as Ht.
  unfold in_flight, max_workers in *.
  etrans; [apply length_filter|done].
Qed.

Lemma pool_ceiling_witness :
  run (RT := Bench.healthy) Bench.site (lit "downloads/d") (Bench.burst 12)
    (start_pool Bench.empty_world (replicate 12 (lit "x.png")))
  = Some Bench.burst_state
  ∧ in_flight Bench.burst_state = 10%nat
  ∧ (in_flight Bench.burst_state ≤ 10)%nat.
Proof.
  assert (H : run (RT := Bench.healthy) Bench.site (lit "downloads/d")
                (Bench.burst 12)
                (start_pool Bench.empty_world (replicate 12 (lit "x.png")))
              = Some Bench.burst_state) by (vm_compute; reflexivity).
  split; [exact H|]. split; [vm_compute; reflexivity|].
  exact (pool_ceiling (RT := Bench.healthy) _ _ _ _ _ _ H).
Defined.

(** ** [scrape_images] as a whole *)

Section ScrapeImages.

Context `{RT : Runtime}.

Lemma scrape_images_makedirs_fails (sched : list action) (soup : Soup)
    (base_url download_dir : str) (w w1 : World) (e : exn) :
  makedirs (store_path download_dir) w = (Raise e, w1) →
  scrape_images sched soup base_url download_dir w = Some (Raise e, w1).
Proof. unfold scrape_images, store_path. by intros ->. Qed.

(** Once the store directory is there, a complete run of the pool ends
    with a return, in a state where the invariant holds. *)
Lemma scrape_images_returns (sched : list action) (soup : Soup)
    (base_url download_dir : str) (w w1 w' : World) (u : unit)
    (r : result (list str)) :
  makedirs (store_path download_dir) w = (Ok u, w1) →
  scrape_images sched soup base_url download_dir w = Some (r, w') →
  ∃ imgs s,
    r = Ok imgs
    ∧ run base_url (store_path download_dir) sched
        (start_pool w1 (potential_image_urls soup)) = Some s
    ∧ main s = Returned imgs ∧ world s = w'
    ∧ pool_inv base_url (store_path download_dir)
        (potential_image_urls soup) s.
Proof.
  unfold scrape_images, store_path. intros -> H.
  destruct (run _ _ sched _) as [s|] eqn:Hrun; [|done]. simpl in H.
  pose proof (run_inv _ _ _ sched _ s (inv_start _ _ _ w1) Hrun) as Hs.
  pose proof (inv_main _ _ _ _ Hs) as Hm.
  destruct (main s) as [todo|ys imgs|imgs|e] eqn:Hmain; try done.
  injection H as <- <-. by exists imgs, s.
Qed.

Lemma makedirs_cases (p : str) (w : World) :
  (∃ e, makedirs p w = (Raise e, w))
  ∨ makedirs p w =
      (Ok tt, {| dirs := dirs w ∪ list_to_set (path_prefixes [] p);
                 files := files w;
                 log := log w ++ [EvMakedirs p] |}).
Proof.
  unfold makedirs.
  destruct (os_refuses (log w) p); [left; by eexists|].
  destruct (existsb (isfile w) (path_prefixes [] p));
    [left; by eexists|by right].
Qed.

Lemma path_prefixes_whole (before p : str) :
  before ++ p ∈ path_prefixes before p.
Proof.
  revert before. induction p as [|c p IH]; intros before; simpl.
  - rewrite app_nil_r. left.
  - apply elem_of_app. right.
    replace (before ++ c :: p) with ((before ++ [c]) ++ p)
      by (by rewrite <- app_assoc).
    apply IH.
Qed.

Lemma makedirs_isdir (p : str) (w w1 : World) (u : unit) :
  makedirs p w = (Ok u, w1) → isdir w1 p = true.
Proof.
  intros H. destruct (makedirs_cases p w) as [[e He]|He];
    rewrite He in H; [done|].
  injection H as _ <-. unfold isdir. simpl.
  apply bool_decide_eq_true. apply elem_of_union. right.
  apply elem_of_list_to_set. apply (path_prefixes_whole [] p).
Qed.

End ScrapeImages.

(** C3, as the code has it.  Once [os.makedirs] has gone through,
    [scrape_images] completes on every list of candidates and under every
    interleaving: a run cannot get stuck before the return nor go on for
    ever, and it raises nothing, whatever fetches fail, whatever payloads
    are rejected and whatever writes fail.  It returns once every
    submitted call has produced its outcome, and what it returns is, in
    some order, the URLs of the calls that succeeded, a call succeeding
    when the fetch, the validation and the write of the file all went
    through; a call that fails leaves [None] as its outcome and nothing
    in the result. *)
Theorem scrape_images_partial_failures `{RT : Runtime} (soup : Soup)
    (base_url download_dir : str) (w w1 : World) :
  let urls := potential_image_urls soup in
  let path := store_path download_dir in
  makedirs path w = (Ok tt, w1) →
  (∃ sched imgs w',
     scrape_images sched soup base_url download_dir w = Some (Ok imgs, w'))
  ∧ (∀ sched r w',
       scrape_images sched soup base_url download_dir w = Some (r, w') →
       ∃ imgs s,
         r = Ok imgs
         ∧ run base_url path sched (start_pool w1 urls) = Some s
         ∧ main s = Returned imgs ∧ world s = w'
         ∧ futures s = submit_task base_url path <$> urls
         ∧ work_queue s = [] ∧ in_flight s = 0%nat
         ∧ fst <$> finished s ≡ₚ seq 0 (length urls)
         ∧ imgs ≡ₚ successes (finished s)
         ∧ ∀ i o, (i, o) ∈ finished s →
             ∃ url, urls !! i = Some url
                    ∧ (o = Ok None ∨ o = Ok (Some (resolve_url url base_url))))
  ∧ (∀ sched s,
       run base_url path sched (start_pool w1 urls) = Some s →
       (length sched ≤ 4 * length urls + 2)%nat
       ∧ (∀ e, main s ≠ Raised e)
       ∧ ((∀ imgs, main s ≠ Returned imgs) →
          ∃ a s', step base_url path a s = Some s')
       ∧ (∀ t s', step base_url path (Start t) s = Some s' →
          ∃ i queue url,
            work_queue s = i :: queue ∧ urls !! i = Some url
            ∧ threads s' !! t
              = Some (Some (i, http_get (log (world s))
                                 (resolve_url url base_url)))
            ∧ new_events (world s) (world s')
              = [EvGet (resolve_url url base_url)])
       ∧ (∀ t i r s',
            threads s !! t = Some (Some (i, r)) →
            step base_url path (Finish t) s = Some s' →
            ∃ url o,
              urls !! i = Some url ∧ finished s' = finished s ++ [(i, o)]
              ∧ (call_succeeds (task_path (submit_task base_url path url))
                   r (world s) →
                 o = Ok (Some (resolve_url url base_url)))
              ∧ (¬ call_succeeds (task_path (submit_task base_url path url))
                     r (world s) →
                 o = Ok None))).
Proof.
  intros urls path Hmk. split_and!.
  - destruct (run_complete base_url path urls
                (steps_left (start_pool w1 urls)) (start_pool w1 urls))
      as (sched & s & imgs & Hrun & Hm); [apply inv_start|done|].
    exists sched, imgs, (world s).
    unfold scrape_images. fold (store_path download_dir). fold path.
    rewrite Hmk. fold urls. rewrite Hrun. simpl. by rewrite Hm.
  - intros sched r w' H.
    destruct (scrape_images_returns sched soup base_url download_dir
                w w1 w' tt r Hmk H) as (imgs & s & -> & Hrun & Hm & Hw & Hs).
    fold urls path in Hrun, Hs.
    pose proof (inv_main _ _ _ _ Hs) as Hmain. rewrite Hm in Hmain.
    destruct Hmain as (Hf & Hq & Hr & Himgs).
    exists imgs, s. split_and!; try done.
    + by rewrite in_flight_running, Hr.
    + pose proof (inv_calls _ _ _ _ Hs) as Hc.
      rewrite Hq, Hr, Hf, length_fmap in Hc. done.
    + intros i o Hin.
      destruct (inv_results _ _ _ _ Hs i o Hin) as (task & Ht & Ho).
      rewrite Hf, list_lookup_fmap in Ht.
      destruct (urls !! i) as [url|]; [|done].
      injection Ht as <-. by exists url.
  - intros sched s Hrun.
    pose proof (run_inv base_url path urls sched _ s
                  (inv_start _ _ urls w1) Hrun) as Hs.
    split_and!.
    + pose proof (run_steps_left base_url path urls sched _ s
                    (inv_start _ _ urls w1) Hrun) as Hl.
      unfold steps_left in Hl at 2. simpl in Hl. lia.
    + intros e He. pose proof (inv_main _ _ _ _ Hs) as Hm.
      by rewrite He in Hm.
    + by apply (step_progress base_url path urls).
    + intros t s'. by apply step_start_request.
    + intros t i r s'. by apply step_finish_outcome.
Qed.

Lemma scrape_images_partial_failures_witness :
  makedirs (RT := Bench.healthy) (store_path (lit "gallery"))
    Bench.empty_world = (Ok tt, Bench.gallery_store)
  ∧ ∃ sched imgs w',
      scrape_images (RT := Bench.healthy) sched Bench.gallery Bench.site
        (lit "gallery") Bench.empty_world = Some (Ok imgs, w').
Proof.
  assert (H : makedirs (RT := Bench.healthy) (store_path (lit "gallery"))
                Bench.empty_world = (Ok tt, Bench.gallery_store))
    by (vm_compute; reflexivity).
  split; [exact H|].
  exact (proj1 (scrape_images_partial_failures (RT := Bench.healthy)
                  Bench.gallery Bench.site (lit "gallery")
                  Bench.empty_world Bench.gallery_store H)).
Defined.

(** The gallery has five candidates; two cannot be fetched and one is an
    HTML page at a [.jpg] address.  The run returns the other two. *)
Example gallery_run :
  fst <$> scrape_images (RT := Bench.healthy) (Bench.sequential 5)
            Bench.gallery Bench.site (lit "gallery") Bench.empty_world
  = Some (Ok [lit "https://site.com/img/a.png";
              lit "https://cdn.site.com/e.webp"]).
Proof. vm_compute. reflexivity. Qed.

(** The result is in completion order: finishing the calls last first
    turns it round. *)
Example gallery_run_last_first :
  fst <$> scrape_images (RT := Bench.healthy) (Bench.last_first 5)
            Bench.gallery Bench.site (lit "gallery") Bench.empty_world
  = Some (Ok [lit "https://cdn.site.com/e.webp";
              lit "https://site.com/img/a.png"]).
Proof. vm_compute. reflexivity. Qed.

(** C3, as stated, fails in two places.  A candidate that was fetched
    and validated is left out of the result when its file cannot be
    written: of the two images of the gallery only the WEBP is returned
    when no [*.png] can be opened.  And the run does raise when the store
    directory cannot be made. *)
Lemma validated_candidate_left_out :
  fetched (http_get (Runtime := Bench.no_space) []
             (lit "https://site.com/img/a.png")) = Some Bench.png_bytes
  ∧ valid_image (RT := Bench.no_space) Bench.png_bytes = true
  ∧ fst <$> scrape_images (RT := Bench.no_space) (Bench.sequential 5)
              Bench.gallery Bench.site (lit "gallery") Bench.empty_world
    = Some (Ok [lit "https://cdn.site.com/e.webp"])
  ∧ scrape_images (RT := Bench.read_only) (Bench.sequential 5)
      Bench.gallery Bench.site (lit "gallery") Bench.empty_world
    = Some (Raise OSError, Bench.empty_world).
Proof. vm_compute. by split_and!. Qed.

(** A schedule that stops early, or takes a step that is not enabled, is
    not a run. *)
Example gallery_run_incomplete :
  scrape_images (RT := Bench.healthy) [Submit true; AsCompleted]
    Bench.gallery Bench.site (lit "gallery") Bench.empty_world = None.
Proof. vm_compute. reflexivity. Qed.

(** ** Failures of the file system *)



(** A write that fails after [open] leaves a file behind: the store then
    holds [a.png] with four bytes in it, and the listing offers it. *)
Example cut_off_file_is_listed :
  let w' := (download_image_if_valid (RT := Bench.disk_full)
               (lit "https://site.com/img/a.png")
               (lit "downloads/empty/a.png") Bench.store_world).2 in
  files w' !! lit "downloads/empty/a.png" = Some (Bench.blit "PNG:")
  ∧ get_downloads (RT := Bench.disk_full) (lit "empty") w'
    = (Ok [(lit "images", VList [lit "/downloads/empty/a.png"])], w').
Proof. vm_compute. by split_and!. Qed.

(** A candidate whose sanitized name is empty has the store directory
    itself as its save path: [open] raises, and nothing is written. *)
Example empty_name_not_written :
  sanitize_image_name (lit "/?x=.png") = []
  ∧ os_path.join (store_path (lit "abc")) [] = lit "downloads/abc/"
  ∧ download_image_if_valid (RT := Fixtures.png_host)
      (lit "https://site.com/?x=.png") (lit "downloads/abc/")
      Bench.store_world
    = (Ok None,
       record (EvGet (lit "https://site.com/?x=.png")) Bench.store_world).
Proof. vm_compute. by split_and!. Qed.


(** ** Listing a store directory *)

Lemma elem_of_listdir `{RT : Runtime} (w : World) (d f : str) :
  f ∈ listdir w d
  ↔ ∃ p, (is_Some (files w !! p) ∨ p ∈ dirs w) ∧ entry_name d p = Some f.
Proof.
  unfold listdir. rewrite list_elem_of_omap.
  split; intros (p & Hp & Hf); exists p; (split; [|done]).
  - apply elem_of_elements, elem_of_union in Hp as [Hp|Hp]; [left|by right].
    by apply elem_of_dom.
  - apply elem_of_elements, elem_of_union.
    destruct Hp as [Hp|Hp]; [left|by right]. by apply elem_of_dom.
Qed.



(** ** The Scrape operation *)

(** C8.  When the page itself cannot be fetched, because the request
    raises a [RequestException] or because the status is in the 4xx or 5xx
    range, [scrape] returns the empty dictionary under every schedule; the
    one GET of the page is all it has done: no directory is made, no file
    written, no candidate fetched. *)
Theorem scrape_page_unreachable `{RT : Runtime} (sched : list action)
    (url : str) (w : World) :
  (∃ e, http_get (log w) url = Raise e ∧ is_RequestException e = true)
  ∨ (∃ r, http_get (log w) url = Ok r
          ∧ (400 ≤ status_code r < 600)%Z) →
  ∃ w', scrape sched url w = Some (Ok [], w')
        ∧ dirs w' = dirs w ∧ files w' = files w
        ∧ new_events w w' = [EvGet url].
Proof.
  intros H. exists (record (EvGet url) w).
  split; [|split_and!; try done; by apply new_events_app].
  unfold scrape, fetch_page, session_get, raise_for_status. unfold_M.
  destruct H as [(e & -> & He)|(r & -> & Hr)]; simpl.
  - by rewrite He.
  - assert ((400 <=? status_code r)%Z && (status_code r <? 600)%Z = true)
      as ->; [|done].
    apply andb_true_iff. split; [apply Z.leb_le|apply Z.ltb_lt]; lia.
Qed.

Lemma scrape_page_unreachable_witness :
  ∃ w', scrape (RT := Bench.healthy) [] (lit "https://site.com/moved")
          Bench.store_world = Some (Ok [], w')
        ∧ dirs w' = dirs Bench.store_world
        ∧ files w' = files Bench.store_world
        ∧ new_events Bench.store_world w'
          = [EvGet (lit "https://site.com/moved")].
Proof.
  apply (scrape_page_unreachable (RT := Bench.healthy)).
  right. exists {| status_code := 503; content := [] |}.
  split; [vm_compute; reflexivity|]. simpl. lia.
Defined.

Lemma scrape_location `{RT : Runtime} (sched : list action) (url : str)
    (w w' : World) (d : dict) :
  scrape sched url w = Some (Ok d, w') → d ≠ [] →
  ∃ hashed_dir,
    sanitize_url url = Ok hashed_dir ∧ d = location hashed_dir
    ∧ isdir w' (store_path hashed_dir) = true.
Proof.
  unfold scrape. intros H Hd.
  destruct (fetch_page url w) as [[response|e] w1].
  2:{ destruct (is_RequestException e); [|done].
      injection H as Hnil _. by subst d. }
  destruct (sanitize_url url) as [hashed_dir|e]; [|done].
  destruct (Py.split slash url !! 2%nat) as [host|]; [|done].
  destruct (scrape_images _ _ _ _ w1) as [[r w2]|] eqn:Hs; [|done].
  simpl in H. destruct r as [imgs|e]; [|done]. injection H as <- <-.
  exists hashed_dir. split_and!; try done.
  destruct (makedirs_cases (store_path hashed_dir) w1) as [[e He]|He].
  { by rewrite (scrape_images_makedirs_fails _ _ _ _ _ _ _ He) in Hs. }
  destruct (scrape_images_returns _ _ _ _ _ _ _ _ _ He Hs)
    as (imgs' & s & _ & Hrun & _ & <- & _).
  unfold isdir. rewrite (run_dirs _ _ _ _ _ Hrun). simpl.
  apply (makedirs_isdir _ _ _ _ He).
Qed.

(** C4.  Once the store directory of a URL's hash exists, the endpoint
    answers from it: the call returns the location of that directory and
    leaves the world as it was, log included, so no request goes out.  A
    first call that returned a location returned this same one, and left
    the directory in place for the calls after it. *)
Theorem scrape_images_endpoint_idempotent `{RT : Runtime} (url : str)
    (hashed_dir : str) :
  sanitize_url url = Ok hashed_dir →
  (∀ sched w,
     isdir w (store_path hashed_dir) = true →
     scrape_images_endpoint sched url w
     = Some (Ok (location hashed_dir), w)
     ∧ new_events w w = [])
  ∧ (∀ sched w0 d1 w1,
       scrape_images_endpoint sched url w0 = Some (Ok d1, w1) → d1 ≠ [] →
       d1 = location hashed_dir
       ∧ isdir w1 (store_path hashed_dir) = true
       ∧ ∀ sched', scrape_images_endpoint sched' url w1 = Some (Ok d1, w1)).
Proof.
  intros Hh.
  assert (Hhit : ∀ sched w,
            isdir w (store_path hashed_dir) = true →
            scrape_images_endpoint sched url w
            = Some (Ok (location hashed_dir), w)).
  { intros sched w Hd. unfold scrape_images_endpoint.
    rewrite Hh. fold (store_path hashed_dir). by rewrite Hd. }
  split.
  { intros sched w Hd. split; [by apply Hhit|].
    unfold new_events. apply drop_all. }
  intros sched w0 d1 w1 H Hd.
  assert (d1 = location hashed_dir
          ∧ isdir w1 (store_path hashed_dir) = true) as [-> Hdir].
  { unfold scrape_images_endpoint in H. rewrite Hh in H.
    fold (store_path hashed_dir) in H.
    destruct (isdir w0 (store_path hashed_dir)) eqn:Hd0.
    - by injection H as <- <-.
    - destruct (scrape_location _ _ _ _ _ H Hd) as (h & Hh' & -> & Hdir).
      rewrite Hh in Hh'. by injection Hh' as <-. }
  split_and!; try done. intros sched'. by apply Hhit.
Qed.

Lemma scrape_images_endpoint_idempotent_witness :
  sanitize_url Bench.page_url = Ok (lit "229442d1a65f7a06b993519ba8d68246")
  ∧ isdir Bench.page_scraped
      (store_path (lit "229442d1a65f7a06b993519ba8d68246")) = true
  ∧ scrape_images_endpoint (RT := Bench.healthy) [] Bench.page_url
      Bench.page_scraped
    = Some (Ok (location (lit "229442d1a65f7a06b993519ba8d68246")),
            Bench.page_scraped).
Proof.
  assert (Hh : sanitize_url Bench.page_url
               = Ok (lit "229442d1a65f7a06b993519ba8d68246"))
    by (vm_compute; reflexivity).
  assert (Hd : isdir Bench.page_scraped
                 (store_path (lit "229442d1a65f7a06b993519ba8d68246")) = true)
    by (vm_compute; reflexivity).
  split; [exact Hh|]. split; [exact Hd|].
  exact (proj1 (proj1 (scrape_images_endpoint_idempotent
                         (RT := Bench.healthy) Bench.page_url
                         (lit "229442d1a65f7a06b993519ba8d68246") Hh)
                  [] Bench.page_scraped Hd)).
Defined.

(** The first call on the gallery page fetches it and its five
    candidates; the second call returns the same location and adds
    nothing to the log. *)
Example gallery_twice :
  fst <$> scrape_images_endpoint (RT := Bench.healthy) (Bench.sequential 5)
            Bench.page_url Bench.empty_world
  = Some (Ok (location (lit "229442d1a65f7a06b993519ba8d68246")))
  ∧ length (log Bench.page_scraped) = 9%nat
  ∧ scrape_images_endpoint (RT := Bench.healthy) [] Bench.page_url
      Bench.page_scraped
    = Some (Ok (location (lit "229442d1a65f7a06b993519ba8d68246")),
            Bench.page_scraped).
Proof. vm_compute. repeat split; reflexivity. Qed.

(** * Further properties *)

(** ** File names, again *)

Lemma replace_invalid_alphabet (name : str) :
  Forall (fun c => valid_name_char c = true ∨ c = underscore)
         (replace_invalid name).
Proof.
  induction name as [|c name IH]; simpl; constructor; [|done].
  destruct (valid_name_char c) eqn:Hc; auto.
Qed.

Lemma replace_invalid_fixed (name : str) :
  Forall (fun c => valid_name_char c = true ∨ c = underscore) name →
  replace_invalid name = name.
Proof.
  induction 1 as [|c name [Hc| ->] _ IH]; simpl; [done| |].
  - rewrite Hc. f_equal. apply IH.
  - f_equal. apply IH.
Qed.

Lemma strip_query_from_elem (inq : bool) (s : str) (x : N) :
  x ∈ strip_query_from inq s → x ∈ s.
Proof.
  revert inq. induction s as [|c s IH]; intros inq; simpl; [done|].
  destruct inq.
  - destruct (c =? newline).
    + intros [->|H]%elem_of_cons; [left|right; by eapply IH].
    + intros H. right. by eapply IH.
  - destruct (c =? question).
    + intros H. right. by eapply IH.
    + intros [->|H]%elem_of_cons; [left|right; by eapply IH].
Qed.

Lemma strip_query_from_length (inq : bool) (s : str) :
  (length (strip_query_from inq s) ≤ length s)%nat.
Proof.
  revert inq. induction s as [|c s IH]; intros inq; simpl; [done|].
  pose proof (IH true). pose proof (IH false).
  destruct inq; [destruct (c =? newline)|destruct (c =? question)]; simpl;
    lia.
Qed.

Lemma strip_query_fixed (s : str) : question ∉ s → strip_query s = s.
Proof.
  unfold strip_query. induction s as [|c s IH]; intros H; simpl; [done|].
  apply not_elem_of_cons in H as [Hc Hs].
  destruct (N.eqb_spec c question) as [->|_]; [done|].
  f_equal. by apply IH.
Qed.

Lemma strip_query_prefix (d s : str) :
  question ∉ d →
  strip_query_from false (d ++ s) = d ++ strip_query_from false s.
Proof.
  induction d as [|c d IH]; intros H; simpl; [done|].
  apply not_elem_of_cons in H as [Hc Hd].
  destruct (N.eqb_spec c question) as [->|_]; [done|].
  f_equal. by apply IH.
Qed.

Lemma rev_tail_name_length (r : str) :
  (length (os_path.rev_tail_name r) ≤ length r)%nat.
Proof.
  induction r as [|c r IH]; simpl; [done|].
  destruct (c =? slash); simpl; lia.
Qed.

Lemma rev_tail_name_elem (r : str) (x : N) :
  x ∈ os_path.rev_tail_name r → x ∈ r ∧ x ≠ slash.
Proof.
  induction r as [|c r IH]; simpl; [by intros ?%elem_of_nil|].
  destruct (N.eqb_spec c slash) as [->|Hc]; [by intros ?%elem_of_nil|].
  intros [->|H]%elem_of_cons.
  - split; [left|done].
  - destruct (IH H). split; [by right|done].
Qed.

Lemma rev_tail_name_stop (r x : str) :
  slash ∉ r → os_path.rev_tail_name (r ++ slash :: x) = r.
Proof.
  induction r as [|c r IH]; intros H; simpl.
  - done.
  - apply not_elem_of_cons in H as [Hc Hr].
    destruct (N.eqb_spec c slash) as [->|_]; [done|].
    f_equal. by apply IH.
Qed.

Lemma basename_no_slash (p : str) : slash ∉ os_path.basename p.
Proof.
  unfold os_path.basename. intros H.
  apply list_elem_of_In, in_rev, list_elem_of_In in H.
  by destruct (rev_tail_name_elem _ _ H).
Qed.

Lemma basename_after_slash (dir name : str) :
  slash ∉ name → os_path.basename (dir ++ slash :: name) = name.
Proof.
  intros H. unfold os_path.basename.
  rewrite rev_app_distr. simpl. rewrite <- app_assoc. simpl.
  rewrite rev_tail_name_stop; [apply rev_involutive|].
  intros Hin. apply H, list_elem_of_In, in_rev. by apply list_elem_of_In.
Qed.

Lemma sanitize_image_name_chars (image_url : str) :
  Forall (fun c => valid_name_char c = true ∨ c = underscore)
         (sanitize_image_name image_url).
Proof. apply replace_invalid_alphabet. Qed.

(** X1.  A local file name is made of letters, digits, hyphens, dots and
    underscores only: it has no slash, so the file lies directly in the
    store directory, and no question mark; and it is never longer than the
    URL it comes from. *)
Theorem sanitize_image_name_alphabet (image_url : str) :
  Forall (fun c => valid_name_char c = true ∨ c = underscore)
         (sanitize_image_name image_url)
  ∧ (slash ∉ sanitize_image_name image_url)
  ∧ (question ∉ sanitize_image_name image_url)
  ∧ (length (sanitize_image_name image_url) ≤ length image_url)%nat.
Proof.
  pose proof (sanitize_image_name_chars image_url) as Hall.
  split_and!; [done| | |].
  - intros H. by destruct (proj1 (Forall_forall _ _) Hall _ H).
  - intros H. by destruct (proj1 (Forall_forall _ _) Hall _ H).
  - unfold sanitize_image_name, replace_invalid, os_path.basename, strip_query.
    rewrite length_map, length_rev.
    etrans; [apply rev_tail_name_length|].
    rewrite length_rev. apply strip_query_from_length.
Qed.

(** X2.  Sanitizing a name that is already sanitized changes nothing. *)
Theorem sanitize_image_name_idempotent (image_url : str) :
  sanitize_image_name (sanitize_image_name image_url)
  = sanitize_image_name image_url.
Proof.
  pose proof (sanitize_image_name_chars image_url) as Hall.
  set (name := sanitize_image_name image_url) in *.
  assert (Hq : question ∉ name).
  { intros H. by destruct (proj1 (Forall_forall _ _) Hall _ H). }
  assert (Hs : slash ∉ name).
  { intros H. by destruct (proj1 (Forall_forall _ _) Hall _ H). }
  unfold sanitize_image_name at 1.
  rewrite strip_query_fixed by done. rewrite basename_id by done.
  by apply replace_invalid_fixed.
Qed.

(** X3.  The directory part of a URL plays no part in the local file name:
    what stands before the last slash is dropped, so two resources with
    the same file name in different directories get the same local name. *)
Theorem sanitize_image_name_drops_directory (dir name : str) :
  question ∉ dir → slash ∉ name →
  sanitize_image_name (dir ++ slash :: name) = sanitize_image_name name.
Proof.
  intros Hd Hn. unfold sanitize_image_name, strip_query.
  rewrite strip_query_prefix by done.
  assert (Hs : slash ∉ strip_query_from false name).
  { intros H. by apply Hn, (strip_query_from_elem false). }
  assert (strip_query_from false (slash :: name)
          = slash :: strip_query_from false name) as -> by done.
  rewrite basename_after_slash by done. by rewrite basename_id.
Qed.

Lemma sanitize_image_name_drops_directory_witness :
  sanitize_image_name (lit "https://a.org/2019" ++ slash :: lit "cat.png?w=1")
  = sanitize_image_name (lit "cat.png?w=1")
  ∧ sanitize_image_name (lit "/thumbs" ++ slash :: lit "cat.png?w=1")
    = sanitize_image_name (lit "cat.png?w=1").
Proof.
  split; apply sanitize_image_name_drops_directory;
    vm_compute; intros H;
    by repeat (inversion H as [|? ? ? H']; clear H; rename H' into H).
Defined.

(** ** The URL normalizer, again *)

Lemma lstrip_stops (c a : N) (l m : str) :
  a ≠ c → ∃ l', Py.lstrip c (l ++ a :: m) = l' ++ a :: m.
Proof.
  intros Ha. induction l as [|b l [l' IH]]; simpl.
  - destruct (N.eqb_spec a c); [done|]. by exists [].
  - destruct (b =? c); [by exists l'|]. by exists (b :: l).
Qed.

Lemma lstrip_head (c : N) (s : str) : Py.startswith (Py.lstrip c s) [c] = false.
Proof.
  induction s as [|a s IH]; simpl; [done|].
  destruct (N.eqb_spec a c) as [->|Hac]; [done|]. simpl.
  destruct (N.eqb_spec c a) as [->|_]; done.
Qed.

Lemma lstrip_fixed (c : N) (s : str) :
  Py.startswith s [c] = false → Py.lstrip c s = s.
Proof.
  destruct s as [|a s]; simpl; [done|].
  destruct (N.eqb_spec c a) as [->|Hca]; [done|].
  destruct (N.eqb_spec a c) as [->|_]; done.
Qed.

Lemma rstrip_tail (c : N) (s : str) : Py.endswith (Py.rstrip c s) [c] = false.
Proof.
  unfold Py.endswith, Py.rstrip. rewrite rev_involutive. apply lstrip_head.
Qed.

(** Stripping trailing [c] keeps a prefix that does not end in [c]. *)
Lemma rstrip_keeps_prefix (c a : N) (p s : str) :
  a ≠ c → ∃ s', Py.rstrip c (p ++ a :: s) = p ++ a :: s'.
Proof.
  intros Ha. unfold Py.rstrip.
  rewrite rev_app_distr. simpl. rewrite <- app_assoc. simpl.
  destruct (lstrip_stops c a (rev s) (rev p) Ha) as [l' ->].
  exists (rev l'). rewrite rev_app_distr. simpl.
  by rewrite rev_involutive, <- app_assoc.
Qed.

Lemma startswith_http_s (url : str) :
  Py.startswith_any url [lit "http"; lit "https"] = true →
  Py.startswith url (lit "http") = true.
Proof.
  unfold Py.startswith_any. cbn [existsb]. rewrite orb_false_r.
  intros [H|H]%orb_true_iff; [done|].
  apply startswith_spec in H as [rest ->]. reflexivity.
Qed.

(** X4.  Against a base that begins with [http], as the one [scrape]
    builds, every reference resolves to a URL that begins with [http];
    resolving such a URL once more gives it back. *)
Theorem resolve_url_absolute (url base_url : str) :
  Py.startswith base_url (lit "http") = true →
  Py.startswith (resolve_url url base_url) (lit "http") = true
  ∧ resolve_url (resolve_url url base_url) base_url
    = resolve_url url base_url.
Proof.
  intros Hb.
  assert (H : Py.startswith (resolve_url url base_url) (lit "http") = true).
  { unfold resolve_url.
    destruct (Py.startswith_any url [lit "http"; lit "https"]) eqn:E;
      cbn [negb].
    - by apply startswith_http_s.
    - apply startswith_spec in Hb as [rest ->].
      destruct (rstrip_keeps_prefix slash 112 (lit "htt") rest)
        as [s' Hs']; [done|].
      change (lit "http" ++ rest) with (lit "htt" ++ 112 :: rest).
      destruct (Py.startswith url (lit "//")); [done|].
      destruct (Py.startswith url (lit "/")); by rewrite Hs'. }
  split; [done|].
  unfold resolve_url at 1. unfold Py.startswith_any. cbn [existsb].
  by rewrite H.
Qed.

Lemma resolve_url_absolute_witness :
  Py.startswith (resolve_url (lit "img/a.png") (lit "https://site.com/"))
    (lit "http") = true
  ∧ resolve_url (resolve_url (lit "img/a.png") (lit "https://site.com/"))
      (lit "https://site.com/")
    = resolve_url (lit "img/a.png") (lit "https://site.com/").
Proof.
  apply (resolve_url_absolute (lit "img/a.png") (lit "https://site.com/")).
  reflexivity.
Defined.

(** X5.  A reference that is neither absolute nor protocol-relative is
    joined to the base by exactly one slash: the base loses its trailing
    slashes, the reference its leading ones, so neither side of the slash
    that joins them has one of its own. *)
Theorem resolve_url_one_slash (url base_url : str) :
  Py.startswith_any url [lit "http"; lit "https"] = false →
  Py.startswith url (lit "//") = false →
  resolve_url url base_url
  = Py.rstrip slash base_url ++ slash :: Py.lstrip slash url
  ∧ Py.endswith (Py.rstrip slash base_url) [slash] = false
  ∧ Py.startswith (Py.lstrip slash url) [slash] = false.
Proof.
  intros Ha Hp. split_and!; [|apply rstrip_tail|apply lstrip_head].
  unfold resolve_url. rewrite Ha, Hp. cbn [negb].
  destruct (Py.startswith url (lit "/")) eqn:Hs; [done|].
  by rewrite (lstrip_fixed slash url Hs).
Qed.

Lemma resolve_url_one_slash_witness :
  resolve_url (lit "/img/a.png") (lit "https://site.com///")
  = Py.rstrip slash (lit "https://site.com///")
    ++ slash :: Py.lstrip slash (lit "/img/a.png")
  ∧ Py.endswith (Py.rstrip slash (lit "https://site.com///")) [slash] = false
  ∧ Py.startswith (Py.lstrip slash (lit "/img/a.png")) [slash] = false.
Proof.
  apply (resolve_url_one_slash (lit "/img/a.png") (lit "https://site.com///"));
    reflexivity.
Defined.

(** ** The identity hasher, again *)

Lemma hex_digit_is_hex (n : Z) :
  (0 ≤ n < 16)%Z → is_hex_digit (MD5.hex_digit n) = true.
Proof.
  intros H.
  assert (Hk : ∃ k : nat, (k < 16)%nat ∧ n = Z.of_nat k).
  { exists (Z.to_nat n). lia. }
  destruct Hk as (k & Hk & ->).
  do 16 (destruct k as [|k]; [reflexivity|]). lia.
Qed.

Lemma byte_nibbles (x : Z) :
  (0 ≤ Z.shiftr (Z.land x 0xFF) 4 < 16)%Z
  ∧ (0 ≤ Z.land (Z.land x 0xFF) 0xF < 16)%Z.
Proof.
  change 0xFF%Z with (Z.ones 8). change 0xF%Z with (Z.ones 4).
  rewrite !Z.land_ones by lia. rewrite Z.shiftr_div_pow2 by lia.
  change (2 ^ 8)%Z with 256%Z. change (2 ^ 4)%Z with 16%Z.
  split; Z.div_mod_to_equations; lia.
Qed.

Lemma hex_of_word (w : Z) :
  Forall (fun c => is_hex_digit c = true)
    (flat_map (fun b => [MD5.hex_digit (Z.shiftr b 4);
                         MD5.hex_digit (Z.land b 0xF)])
              (MD5.bytes_of_word w)).
Proof.
  unfold MD5.bytes_of_word. simpl.
  repeat constructor; apply hex_digit_is_hex, byte_nibbles.
Qed.

Lemma hexdigest_hex (msg : bytes) :
  Forall (fun c => is_hex_digit c = true) (MD5.hexdigest msg)
  ∧ length (MD5.hexdigest msg) = 32%nat.
Proof.
  unfold MD5.hexdigest, MD5.digest.
  destruct (foldl _ _ _) as [[[a b] c] d].
  split; [|reflexivity].
  rewrite !flat_map_app. rewrite !Forall_app.
  split_and!; apply hex_of_word.
Qed.

Lemma sanitize_url_shape (url hashed_dir : str) :
  sanitize_url url = Ok hashed_dir →
  length hashed_dir = 32%nat
  ∧ Forall (fun c => is_hex_digit c = true) hashed_dir
  ∧ (slash ∉ hashed_dir)
  ∧ store_path hashed_dir = lit "downloads/" ++ hashed_dir.
Proof.
  unfold sanitize_url. destruct (encode url) as [b|]; [|done].
  intros [= <-]. destruct (hexdigest_hex b) as [Hall Hlen].
  assert (Hs : slash ∉ MD5.hexdigest b).
  { intros H. by pose proof (proj1 (Forall_forall _ _) Hall _ H). }
  split_and!; try done.
  destruct (MD5.hexdigest b) as [|c h]; [done|].
  apply not_elem_of_cons in Hs as [Hc _].
  unfold store_path, os_path.join.
  assert (Py.startswith (c :: h) [slash] = false) as ->.
  { cbn [Py.startswith].
    destruct (N.eqb_spec slash c) as [Heq|_]; [by destruct Hc|done]. }
  assert (negb (Py.truthy (lit "downloads"))
          || Py.endswith (lit "downloads") [slash] = false) as ->
    by reflexivity.
  reflexivity.
Qed.

(** X6.  The identity of a page is thirty-two lower-case hexadecimal
    digits.  It has no slash, and the store directory of the page is
    [downloads/] followed by it: every page is stored one level below
    [downloads]. *)
Theorem sanitize_url_hex (url hashed_dir : str) :
  sanitize_url url = Ok hashed_dir →
  length hashed_dir = 32%nat
  ∧ Forall (fun c => is_hex_digit c = true) hashed_dir
  ∧ (slash ∉ hashed_dir)
  ∧ store_path hashed_dir = lit "downloads/" ++ hashed_dir.
Proof. apply sanitize_url_shape. Qed.

Lemma sanitize_url_hex_witness :
  length (lit "229442d1a65f7a06b993519ba8d68246") = 32%nat
  ∧ Forall (fun c => is_hex_digit c = true)
           (lit "229442d1a65f7a06b993519ba8d68246")
  ∧ (slash ∉ lit "229442d1a65f7a06b993519ba8d68246")
  ∧ store_path (lit "229442d1a65f7a06b993519ba8d68246")
    = lit "downloads/" ++ lit "229442d1a65f7a06b993519ba8d68246".
Proof.
  apply (sanitize_url_hex Bench.page_url). vm_compute. reflexivity.
Defined.

(** ** Candidate extraction *)

Section Extraction.

Context `{RT : Runtime}.

Lemma potential_image_urls_app (soup soup' : Soup) :
  potential_image_urls (soup ++ soup')
  = potential_image_urls soup ++ potential_image_urls soup'.
Proof.
  unfold potential_image_urls, find_all. by rewrite filter_app, bind_app.
Qed.

Lemma potential_image_urls_one (tag : Tag) :
  (length (potential_image_urls [tag]) ≤ 2)%nat.
Proof.
  unfold potential_image_urls, find_all.
  rewrite filter_cons, filter_nil.
  destruct (decide _); [|simpl; lia].
  rewrite bind_singleton, bind_cons, bind_singleton, length_app.
  assert (Hone : ∀ attr,
            (length match tag_attrs tag !! attr with
                    | Some url => if looks_like_image url then [url] else []
                    | None => []
                    end ≤ 1)%nat).
  { intros attr. destruct (tag_attrs tag !! attr) as [url|]; [|simpl; lia].
    destruct (looks_like_image url); simpl; lia. }
  pose proof (Hone (lit "href")). pose proof (Hone (lit "src")). lia.
Qed.

End Extraction.

(** X7.  The candidates of a page are the non-empty [href] and [src]
    values of its [img] and [a] tags whose lower-cased text ends in one
    of the six image extensions, and nothing else.  They come in document
    order, repeated as often as they occur, at most two for a tag. *)
Theorem potential_image_urls_spec `{RT : Runtime} (soup : Soup) :
  (∀ url,
     url ∈ potential_image_urls soup
     ↔ ∃ tag attr,
         tag ∈ soup ∧ tag_name tag ∈ [lit "img"; lit "a"]
         ∧ attr ∈ [lit "href"; lit "src"]
         ∧ tag_attrs tag !! attr = Some url ∧ url ≠ []
         ∧ Py.endswith_any (str_lower url) image_extensions = true)
  ∧ (∀ soup',
       potential_image_urls (soup ++ soup')
       = potential_image_urls soup ++ potential_image_urls soup')
  ∧ (length (potential_image_urls soup) ≤ 2 * length soup)%nat.
Proof.
  split_and!.
  - intros url. unfold potential_image_urls, find_all.
    rewrite list_elem_of_bind. split.
    + intros (tag & Hin & Htag). apply list_elem_of_filter in Htag as [Hn Ht].
      apply list_elem_of_bind in Hin as (attr & Hin & Hattr).
      exists tag, attr. split_and!; try done;
        destruct (tag_attrs tag !! attr) as [u|]; try by apply elem_of_nil in Hin.
      * destruct (looks_like_image u); [|by apply elem_of_nil in Hin].
        by apply list_elem_of_singleton in Hin as ->.
      * destruct (looks_like_image u) eqn:Hl; [|by apply elem_of_nil in Hin].
        apply list_elem_of_singleton in Hin as ->.
        apply andb_true_iff in Hl as [Hl _]. by destruct u.
      * destruct (looks_like_image u) eqn:Hl; [|by apply elem_of_nil in Hin].
        apply list_elem_of_singleton in Hin as ->.
        by apply andb_true_iff in Hl as [_ Hl].
    + intros (tag & attr & Ht & Hn & Hattr & Hget & Hne & Hext).
      exists tag. split; [|by apply list_elem_of_filter].
      apply list_elem_of_bind. exists attr. split; [|done].
      rewrite Hget.
      assert (looks_like_image url = true) as ->; [|left].
      unfold looks_like_image. apply andb_true_iff. split; [by destruct url|].
      done.
  - apply potential_image_urls_app.
  - induction soup as [|tag soup IH]; [done|].
    change (tag :: soup) with ([tag] ++ soup).
    rewrite potential_image_urls_app, !length_app.
    pose proof (potential_image_urls_one tag). simpl in *. lia.
Qed.

(** ** What a run of the pool does to the world *)

Section PoolEffects.

Context `{RT : Runtime}.
Variables base_url local_download_path : str.
Variable urls : list str.
Variable w0 : World.

Local Abbreviation step := (step base_url local_download_path).
Local Abbreviation run := (run base_url local_download_path).
Local Abbreviation task_of := (submit_task base_url local_download_path).
Local Abbreviation inv := (pool_inv base_url local_download_path urls).

Lemma gets_app (l k : list event) : gets (l ++ k) = gets l ++ gets k.
Proof. apply omap_app. Qed.

Lemma writes_app (l k : list event) : writes (l ++ k) = writes l ++ writes k.
Proof. apply omap_app. Qed.

Lemma partials_app (l k : list event) :
  partials (l ++ k) = partials l ++ partials k.
Proof. apply omap_app. Qed.

Lemma replay_app (m : gmap str bytes) (l k : list event) :
  replay m (l ++ k) = replay (replay m l) k.
Proof. apply foldl_app. Qed.


(** What finishing a call does: nothing; or the cut-off write of a
    payload that was fetched and is valid, the call failing; or the write
    of such a payload. *)
Lemma finish_download_effect (u p : str) (r : result Response) (w : World) :
  finish_download u p r w = (Ok None, w)
  ∨ (∃ b n, fetched r = Some b ∧ valid_image b = true
            ∧ finish_download u p r w
              = (Ok None,
                 {| dirs := dirs w; files := <[p := take n b]> (files w);
                    log := log w ++ [EvPartial p (take n b)] |}))
  ∨ ∃ b, fetched r = Some b ∧ valid_image b = true
         ∧ finish_download u p r w
           = (Ok (Some u),
              {| dirs := dirs w; files := <[p := b]> (files w);
                 log := log w ++ [EvWrite p b] |}).
Proof.
  rewrite finish_download_spec.
  destruct (fetched r) as [b|]; [|by left].
  destruct (valid_image b) eqn:Hv; [|by left].
  destruct (open_wb_write_cases p b w) as [[e ->]|[(e & n & ->)| ->]];
    [by left| |].
  - right. left. by exists b, n.
  - right. right. by exists b.
Qed.

Lemma effects_start : pool_effects w0 (start_pool w0 urls).
Proof.
  assert (H : new_events w0 w0 = []) by apply drop_all.
  split; simpl; rewrite ?H; try done.
  by rewrite app_nil_r.
Qed.

Lemma partials_futures (fs fs' : list Task) (l : list (str * bytes)) :
  fs ⊆ fs' →
  Forall (fun pb => cut_image pb.2
                    ∧ ∃ task, task ∈ fs ∧ pb.1 = task_path task) l →
  Forall (fun pb => cut_image pb.2
                    ∧ ∃ task, task ∈ fs' ∧ pb.1 = task_path task) l.
Proof.
  intros Hsub H. eapply Forall_impl; [done|].
  intros pb (Hc & task & Ht & Hp). split; [done|].
  exists task. split; [by apply Hsub|done].
Qed.

(** A step of the main thread leaves the effects as they are. *)
Lemma effects_same (s s' : Pool) :
  world s' = world s → futures s' = futures s → threads s' = threads s →
  finished s' = finished s → pool_effects w0 s → pool_effects w0 s'.
Proof.
  intros Hw Hf Ht Hfin [H1 H2 H3 H4 H5 H6 H7 H8 H9].
  split; unfold saved, url_of, path_of, running in *;
    rewrite ?Hw, ?Hf, ?Ht, ?Hfin; done.
Qed.

Lemma url_of_lookup (s : Pool) (i : nat) (task : Task) :
  futures s !! i = Some task → url_of s i = task_url task.
Proof. unfold url_of. by intros ->. Qed.

Lemma path_of_lookup (s : Pool) (i : nat) (task : Task) :
  futures s !! i = Some task → path_of s i = task_path task.
Proof. unfold path_of. by intros ->. Qed.

Lemma omap_ext_elem {A B} (f g : A → option B) (l : list A) :
  (∀ x, x ∈ l → f x = g x) → omap f l = omap g l.
Proof.
  induction l as [|x l IH]; intros H; [done|]. csimpl.
  rewrite (H x) by left. rewrite IH; [done|].
  intros y Hy. apply H. by right.
Qed.

Lemma fmap_ext_elem {A B} (f g : A → B) (l : list A) :
  (∀ x, x ∈ l → f x = g x) → f <$> l = g <$> l.
Proof.
  intros H. apply list_fmap_ext. intros i x Hi. apply H.
  by eapply list_elem_of_lookup_2.
Qed.

Lemma new_events_grow (w w' : World) (k : list event) :
  log w = log w0 ++ new_events w0 w → log w' = log w ++ k →
  new_events w0 w' = new_events w0 w ++ k.
Proof.
  intros H Hk. apply new_events_app. rewrite Hk. rewrite H at 1.
  by rewrite app_assoc.
Qed.

Lemma effects_submit (s s' : Pool) (task : Task) :
  inv s → pool_effects w0 s →
  world s' = world s → futures s' = futures s ++ [task] →
  running s' = running s → finished s' = finished s →
  pool_effects w0 s'.
Proof.
  intros Hs [H1 H2 H3 H4 H5 H6 H7 H8 H9] Hw Hf Hr Hfin.
  assert (Hlt : ∀ i, i ∈ running s ++ (fst <$> finished s) →
                  (i < length (futures s))%nat).
  { intros i Hi. apply (inv_call_lt _ _ _ s i Hs).
    apply elem_of_app. by right. }
  split; rewrite ?Hw, ?Hr, ?Hfin; try done.
  3:{ rewrite Hf. eapply partials_futures; [|done].
      intros x Hx. apply elem_of_app. by left. }
  - rewrite H4. rewrite (fmap_ext_elem (url_of s) (url_of s')); [done|].
    intros i Hi. unfold url_of. rewrite Hf. by rewrite lookup_app_l by auto.
  - rewrite H5. unfold saved. rewrite Hfin. apply Permutation_refl'.
    apply omap_ext_elem. intros [i o] Hi. simpl.
    destruct o as [[u|]|e]; try done.
    f_equal. unfold path_of. rewrite Hf. rewrite lookup_app_l; [done|].
    apply Hlt, elem_of_app. right. apply list_elem_of_fmap.
    by exists (i, Ok (Some u)).
Qed.

Lemma effects_start_call (s s' : Pool) (i : nat) (task : Task) :
  pool_effects w0 s → futures s !! i = Some task →
  world s' = record (EvGet (task_url task)) (world s) →
  futures s' = futures s → running s' ≡ₚ i :: running s →
  finished s' = finished s →
  pool_effects w0 s'.
Proof.
  intros [H1 H2 H3 H4 H5 H6 H7 H8 H9] Hi Hw Hf Hr Hfin.
  pose proof (new_events_grow (world s)
                (record (EvGet (task_url task)) (world s))
                [EvGet (task_url task)] H1 eq_refl) as Hn.
  assert (Hu : url_of s' = url_of s) by (unfold url_of; by rewrite Hf).
  assert (Hs : saved s' = saved s)
    by (unfold saved, path_of; by rewrite Hf, Hfin).
  split; rewrite ?Hw, ?Hs, ?Hu, ?Hf, ?Hfin, ?Hn, ?gets_app, ?writes_app,
    ?partials_app, ?replay_app; simpl; rewrite ?app_nil_r; try done.
  - rewrite H1 at 1. by rewrite app_assoc.
  - rewrite Hr, <- app_comm_cons, fmap_cons.
    rewrite (url_of_lookup s i task Hi), <- H4.
    symmetry. apply Permutation_cons_append.
  - rewrite !length_app, H7. simpl. lia.
Qed.

Lemma effects_finish_call (s s' : Pool) (i : nat) (r : result Response)
    (task : Task) (o : result (option str)) :
  pool_effects w0 s → futures s !! i = Some task →
  finish_download (task_url task) (task_path task) r (world s)
  = (o, world s') →
  futures s' = futures s → running s ≡ₚ i :: running s' →
  finished s' = finished s ++ [(i, o)] →
  pool_effects w0 s'.
Proof.
  intros [H1 H2 H3 H4 H5 H6 H7 H8 H9] Hi Hd Hf Hr Hfin.
  assert (Hu : url_of s' = url_of s) by (unfold url_of; by rewrite Hf).
  assert (Hp : path_of s' = path_of s) by (unfold path_of; by rewrite Hf).
  assert (Hids : running s ++ (fst <$> finished s)
                 ≡ₚ running s' ++ (fst <$> finished s')).
  { rewrite Hr, Hfin, fmap_app. simpl.
    rewrite app_assoc. apply Permutation_cons_append. }
  assert (Hlen : length (finished s') = S (length (finished s))).
  { rewrite Hfin, length_app. simpl. lia. }
  destruct (finish_download_effect (task_url task) (task_path task) r (world s))
    as [He|[(b & n & Hb & Hv & He)|(b & Hb & Hv & He)]];
    rewrite He in Hd; injection Hd as <- Hw.
  - split; rewrite <- ?Hw, ?Hf; try done.
    + by rewrite H4, Hids, Hu.
    + unfold saved. rewrite Hfin, omap_app, Hp. simpl.
      by rewrite app_nil_r.
    + lia.
  - pose proof (new_events_grow (world s) (world s')
                  [EvPartial (task_path task) (take n b)] H1) as Hn.
    rewrite <- Hw in Hn. specialize (Hn eq_refl).
    split; rewrite <- ?Hw; rewrite ?Hf, ?Hn, ?gets_app, ?writes_app,
      ?partials_app, ?replay_app; simpl; rewrite ?app_nil_r; try done.
    + rewrite H1 at 1. by rewrite app_assoc.
    + by rewrite H3.
    + by rewrite H4, Hids, Hu.
    + unfold saved. rewrite Hfin, omap_app, Hp. simpl.
      by rewrite app_nil_r.
    + rewrite !length_app, H7. simpl. lia.
    + apply Forall_app. split; [done|]. apply Forall_singleton. simpl.
      split; [by exists b, n|].
      exists task. split; [by eapply list_elem_of_lookup_2|done].
    + rewrite !length_app. simpl. lia.
  - pose proof (new_events_grow (world s) (world s')
                  [EvWrite (task_path task) b] H1) as Hn.
    rewrite <- Hw in Hn. specialize (Hn eq_refl).
    split; rewrite <- ?Hw; rewrite ?Hf, ?Hn, ?gets_app, ?writes_app,
      ?partials_app, ?replay_app; simpl; rewrite ?app_nil_r; try done.
    + rewrite H1 at 1. by rewrite app_assoc.
    + by rewrite H3.
    + by rewrite H4, Hids, Hu.
    + unfold saved. rewrite Hfin, omap_app, fmap_app, Hp. simpl.
      rewrite (path_of_lookup s i task Hi).
      by apply Permutation_app_tail.
    + apply Forall_app. split; [done|]. by apply Forall_singleton.
    + rewrite !length_app, H7. simpl. lia.
    + rewrite !length_app. simpl. lia.
Qed.

Lemma step_effects (a : action) (s s' : Pool) :
  inv s → pool_effects w0 s → step a s = Some s' → pool_effects w0 s'.
Proof.
  intros Hs He H. destruct a as [spawn| |t|t|i|]; simpl in H.
  - destruct (main s) as [[|url todo]| | |]; try done.
    injection H as <-.
    apply (effects_submit s _ (task_of url)); try done.
    unfold running. simpl. apply adjust_thread_count_running.
  - destruct (main s) as [[|url todo]| | |]; try done.
    injection H as <-. by apply (effects_same s).
  - destruct (threads s !! t) as [[|]|] eqn:Ht; try done.
    destruct (work_queue s) as [|i queue]; try done.
    destruct (futures s !! i) as [task|] eqn:Hi; try done. simpl in H.
    injection H as <-.
    apply (effects_start_call s _ i task); try done.
    unfold running. simpl. by apply omap_insert_busy.
  - destruct (threads s !! t) as [[[i r]|]|] eqn:Ht; try done.
    destruct (futures s !! i) as [task|] eqn:Hi; try done. simpl in H.
    destruct (finish_download _ _ r (world s)) as [o w] eqn:Hd.
    injection H as <-.
    apply (effects_finish_call s _ i r task o); try done.
    unfold running. simpl. by eapply omap_insert_idle.
  - destruct (main s) as [|ys imgs| |]; try done.
    case_bool_decide; [done|].
    destruct (future_result (finished s) i); try done. simpl in H.
    injection H as <-. by apply (effects_same s).
  - destruct (main s) as [|ys imgs| |]; try done.
    destruct (bool_decide _ && _); [|done].
    injection H as <-. by apply (effects_same s).
Qed.

Lemma run_effects (sched : list action) (s s' : Pool) :
  inv s → pool_effects w0 s → run sched s = Some s' → pool_effects w0 s'.
Proof.
  revert s. induction sched as [|a sched IH]; intros s Hs He H; simpl in H.
  - by injection H as <-.
  - destruct (step a s) as [s1|] eqn:Ha; [|done]. simpl in H.
    eapply (IH s1); [by eapply step_inv|by eapply step_effects|done].
Qed.

End PoolEffects.

(** ** What [scrape_images] does to the world *)

Section ScrapeImagesEffects.

Context `{RT : Runtime}.

Lemma fmap_lookup_seq {A B} (f : A → B) (d : B) (l : list A) :
  (fun i => default d (f <$> l !! i)) <$> seq 0 (length l) = f <$> l.
Proof.
  apply list_eq. intros i. rewrite !list_lookup_fmap.
  destruct (decide (i < length l)%nat) as [Hi|Hi].
  - rewrite lookup_seq_lt by done. simpl.
    destruct (lookup_lt_is_Some_2 l i Hi) as [x ->]. done.
  - rewrite lookup_seq_ge by lia. by rewrite lookup_ge_None_2 by lia.
Qed.

Lemma saved_length (s : Pool) :
  length (saved s) = length (successes (finished s)).
Proof.
  unfold saved, successes.
  induction (finished s) as [|[i o] fin IH]; [done|]. csimpl.
  rewrite length_app, <- IH. by destruct o as [[u|]|e].
Qed.

(** The state in which a complete run of [scrape_images] returns. *)
Lemma scrape_images_effects (sched : list action) (soup : Soup)
    (base_url download_dir : str) (w w1 w' : World) (u : unit)
    (r : result (list str)) :
  makedirs (store_path download_dir) w = (Ok u, w1) →
  scrape_images sched soup base_url download_dir w = Some (r, w') →
  ∃ imgs s,
    r = Ok imgs ∧ main s = Returned imgs ∧ world s = w'
    ∧ pool_inv base_url (store_path download_dir)
        (potential_image_urls soup) s
    ∧ pool_effects w1 s.
Proof.
  intros Hmk H.
  destruct (scrape_images_returns _ _ _ _ _ _ _ _ _ Hmk H)
    as (imgs & s & -> & Hrun & Hm & Hw & Hs).
  exists imgs, s. split_and!; try done.
  eapply run_effects; [apply inv_start|apply effects_start|done].
Qed.

Lemma returned_requests (base_url path : str) (urls imgs : list str)
    (s : Pool) :
  pool_inv base_url path urls s → main s = Returned imgs →
  url_of s <$> (running s ++ (fst <$> finished s))
  ≡ₚ (fun url => resolve_url url base_url) <$> urls.
Proof.
  intros Hs Hm. pose proof (inv_main _ _ _ _ Hs) as H. rewrite Hm in H.
  destruct H as (Hf & Hq & Hr & _).
  pose proof (inv_calls _ _ _ _ Hs) as Hc. rewrite Hq, Hr in Hc.
  simpl in Hc. rewrite Hr. simpl. rewrite Hc.
  unfold url_of. rewrite fmap_lookup_seq, Hf, <- list_fmap_compose. done.
Qed.

Lemma saved_candidate (base_url path : str) (urls : list str) (s : Pool)
    (p : str) :
  pool_inv base_url path urls s → p ∈ saved s →
  ∃ url, url ∈ urls ∧ p = os_path.join path (sanitize_image_name url).
Proof.
  intros Hs Hp. unfold saved in Hp.
  apply list_elem_of_omap in Hp as ([i o] & Hin & Hp). simpl in Hp.
  destruct o as [[u|]|e]; try done. injection Hp as <-.
  destruct (inv_results _ _ _ _ Hs i _ Hin) as (task & Ht & _).
  destruct (inv_future_url _ _ _ s i task Hs Ht) as (url & Hurl & ->).
  exists url. split; [by eapply list_elem_of_lookup_2|].
  by rewrite (path_of_lookup s i _ Ht).
Qed.

End ScrapeImagesEffects.

(** X8.  A run of [scrape_images] requests the resolved URL of every
    candidate exactly once, a candidate that occurs twice being requested
    twice, and requests nothing else: no call is retried, none is
    skipped. *)
Theorem scrape_images_requests `{RT : Runtime} (sched : list action)
    (soup : Soup) (base_url download_dir : str) (w w1 w' : World)
    (r : result (list str)) :
  makedirs (store_path download_dir) w = (Ok tt, w1) →
  scrape_images sched soup base_url download_dir w = Some (r, w') →
  gets (new_events w1 w')
  ≡ₚ (fun url => resolve_url url base_url) <$> potential_image_urls soup.
Proof.
  intros Hmk H.
  destruct (scrape_images_effects _ _ _ _ _ _ _ _ _ Hmk H)
    as (imgs & s & -> & Hm & <- & Hs & He).
  rewrite (eff_gets _ _ He). by eapply returned_requests.
Qed.

Lemma scrape_images_requests_witness :
  gets (new_events Bench.gallery_store
          (default Bench.empty_world
             (snd <$> scrape_images (RT := Bench.healthy) (Bench.last_first 5)
                        Bench.gallery Bench.site (lit "gallery")
                        Bench.empty_world)))
  ≡ₚ (fun url => resolve_url url Bench.site)
       <$> potential_image_urls (RT := Bench.healthy) Bench.gallery.
Proof.
  eapply (scrape_images_requests (RT := Bench.healthy) (Bench.last_first 5)
            Bench.gallery Bench.site (lit "gallery") Bench.empty_world);
    vm_compute; reflexivity.
Defined.



(** ** What [scrape] does to the world *)

Lemma split_from_whole (c : N) (cur a : str) :
  c ∉ a → Py.split_from c cur a = [rev cur ++ a].
Proof.
  revert cur. induction a as [|x a IH]; intros cur H; simpl.
  - by rewrite app_nil_r.
  - apply not_elem_of_cons in H as [Hx Ha].
    destruct (N.eqb_spec x c) as [->|_]; [done|].
    rewrite IH by done. simpl. by rewrite <- app_assoc.
Qed.

Lemma split_from_piece (c : N) (cur a s : str) :
  c ∉ a →
  Py.split_from c cur (a ++ c :: s) = (rev cur ++ a) :: Py.split_from c [] s.
Proof.
  revert cur. induction a as [|x a IH]; intros cur H; simpl.
  - by rewrite N.eqb_refl, app_nil_r.
  - apply not_elem_of_cons in H as [Hx Ha].
    destruct (N.eqb_spec x c) as [->|_]; [done|].
    rewrite IH by done. simpl. by rewrite <- app_assoc.
Qed.

Lemma split_from_length (c : N) (cur s : str) :
  length (Py.split_from c cur s)
  = S (length (filter (fun x => x = c) s)).
Proof.
  revert cur. induction s as [|x s IH]; intros cur; simpl; [done|].
  rewrite filter_cons.
  destruct (N.eqb_spec x c) as [->|Hx].
  - rewrite decide_True by done. simpl. by rewrite IH.
  - rewrite decide_False by done. apply IH.
Qed.

(** The third piece of [scheme//host/...] is the host. *)
Lemma split_host (scheme host rest : str) :
  slash ∉ scheme → slash ∉ host →
  rest = [] ∨ Py.startswith rest [slash] = true →
  Py.split slash (scheme ++ lit "//" ++ host ++ rest) !! 2%nat = Some host.
Proof.
  intros Hs Hh Hr. unfold Py.split.
  change (lit "//" ++ host ++ rest) with (slash :: slash :: host ++ rest).
  rewrite split_from_piece by done.
  pose proof (split_from_piece slash [] [] (host ++ rest)
                (not_elem_of_nil slash)) as Hempty.
  cbn [app rev] in Hempty. rewrite Hempty. cbn [lookup list_lookup app rev].
  destruct Hr as [->|Hr].
  - rewrite app_nil_r, split_from_whole by done. done.
  - apply startswith_spec in Hr as [r ->].
    change ([slash] ++ r) with (slash :: r).
    by rewrite split_from_piece.
Qed.



(** Joining a name that does not start with a slash appends it to the
    directory and its separator. *)
Lemma join_name (d name : str) :
  Py.startswith name [slash] = false →
  os_path.join d name = os_path.join d [] ++ name.
Proof.
  intros H. unfold os_path.join. rewrite H. cbn [Py.startswith].
  destruct (negb (Py.truthy d) || Py.endswith d [slash]).
  - by rewrite app_nil_r.
  - by rewrite <- app_assoc.
Qed.

Lemma startswith_no_slash (name : str) :
  slash ∉ name → Py.startswith name [slash] = false.
Proof.
  destruct name as [|c name]; [done|]. intros [Hc _]%not_elem_of_cons.
  cbn [Py.startswith]. by destruct (N.eqb_spec slash c).
Qed.


Section ScrapeEffects.

Context `{RT : Runtime}.

Lemma fetch_page_ok (url : str) (w w1 : World) (response : Response) :
  fetch_page url w = (Ok response, w1) →
  http_get (log w) url = Ok response
  ∧ fetched (http_get (log w) url) = Some (content response)
  ∧ w1 = record (EvGet url) w.
Proof.
  unfold fetch_page, session_get, raise_for_status, fetched. unfold_M.
  simpl. destruct (http_get (log w) url) as [r|e]; [|done].
  destruct ((400 <=? status_code r)%Z && (status_code r <? 600)%Z); [done|].
  by intros [= -> <-].
Qed.

(** A [scrape] that returns a location went all the way. *)
Lemma scrape_success (sched : list action) (url : str) (w w' : World)
    (d : dict) :
  scrape sched url w = Some (Ok d, w') → d ≠ [] →
  ∃ response h host imgs,
    fetch_page url w = (Ok response, record (EvGet url) w)
    ∧ sanitize_url url = Ok h
    ∧ Py.split slash url !! 2%nat = Some host
    ∧ makedirs (store_path h) (record (EvGet url) w)
      = (Ok tt,
         {| dirs := dirs w ∪ list_to_set (path_prefixes [] (store_path h));
            files := files w;
            log := (log w ++ [EvGet url]) ++ [EvMakedirs (store_path h)] |})
    ∧ scrape_images sched (html_parser (content response))
        (lit "https://" ++ host) h (record (EvGet url) w)
      = Some (Ok imgs, w')
    ∧ d = location h.
Proof.
  unfold scrape. intros H Hd.
  destruct (fetch_page url w) as [[response|e] w1] eqn:Hp.
  2:{ destruct (is_RequestException e); [|done].
      injection H as Hnil _. by subst d. }
  destruct (fetch_page_ok _ _ _ _ Hp) as (_ & _ & ->).
  destruct (sanitize_url url) as [h|e]; [|done].
  destruct (Py.split slash url !! 2%nat) as [host|]; [|done].
  destruct (scrape_images _ _ _ _ _) as [[r w2]|] eqn:Hs; [|done].
  simpl in H. destruct r as [imgs|e]; [|done]. injection H as <- <-.
  exists response, h, host, imgs. split_and!; try done.
  destruct (makedirs_cases (store_path h) (record (EvGet url) w))
    as [[e He]|He]; [|done].
  by rewrite (scrape_images_makedirs_fails _ _ _ _ _ _ _ He) in Hs.
Qed.

(** The requests and the writes of a [scrape] that returns a location:
    the page, the store directory, then what the pool does. *)
Lemma scrape_effects (sched : list action) (url : str) (w w' : World)
    (d : dict) :
  scrape sched url w = Some (Ok d, w') → d ≠ [] →
  ∃ response h host l,
    fetch_page url w = (Ok response, record (EvGet url) w)
    ∧ sanitize_url url = Ok h
    ∧ Py.split slash url !! 2%nat = Some host
    ∧ d = location h
    ∧ new_events w w' = [EvGet url; EvMakedirs (store_path h)] ++ l
    ∧ dirs w' = dirs w ∪ list_to_set (path_prefixes [] (store_path h))
    ∧ files w' = replay (files w) l
    ∧ gets l ≡ₚ (fun c => resolve_url c (lit "https://" ++ host))
                  <$> potential_image_urls (html_parser (content response))
    ∧ Forall (fun pb => valid_image pb.2 = true) (writes l)
    ∧ Forall (fun pb => cut_image pb.2) (partials l)
    ∧ ∀ p, p ∈ (fst <$> writes l) ++ (fst <$> partials l) →
        ∃ c, p = os_path.join (store_path h) (sanitize_image_name c).
Proof.
  intros H Hd.
  destruct (scrape_success _ _ _ _ _ H Hd)
    as (response & h & host & imgs & Hp & Hh & Hs & Hmk & Himgs & ->).
  destruct (scrape_images_effects _ _ _ _ _ _ _ _ _ Hmk Himgs)
    as (imgs' & s & _ & Hm & Hw & Hinv & [H1 H2 H3 H4 H5 H6 H7 H8 H9]).
  rewrite Hw in *.
  set (w2 := {| dirs := dirs w ∪ _ |}) in *.
  exists response, h, host, (new_events w2 w').
  split_and!; try done.
  - apply new_events_app. rewrite H1. simpl. by rewrite <- !app_assoc.
  - by rewrite H4, (returned_requests _ _ _ _ _ Hinv Hm).
  - eapply Forall_impl; [done|]. by intros pb [Hc _].
  - intros p [Hin|Hin]%elem_of_app.
    + rewrite H5 in Hin.
      destruct (saved_candidate _ _ _ _ _ Hinv Hin) as (c & _ & ->).
      by exists c.
    + apply list_elem_of_fmap in Hin as (pb & -> & Hin).
      destruct (proj1 (Forall_forall _ _) H8 pb Hin)
        as (_ & task & Ht & ->).
      pose proof (inv_main _ _ _ _ Hinv) as Hmain. rewrite Hm in Hmain.
      destruct Hmain as (Hfut & _). rewrite Hfut in Ht.
      apply list_elem_of_fmap in Ht as (c & -> & _). by exists c.
Qed.

(** A page without candidates: the pool has nothing to do. *)
Lemma scrape_images_nothing (sched : list action) (soup : Soup)
    (base_url download_dir : str) (w w1 w' : World) (u : unit)
    (r : result (list str)) :
  potential_image_urls soup = [] →
  makedirs (store_path download_dir) w = (Ok u, w1) →
  scrape_images sched soup base_url download_dir w = Some (r, w') →
  r = Ok [] ∧ w' = w1.
Proof.
  intros Hnone Hmk H.
  destruct (scrape_images_effects _ _ _ _ _ _ _ _ _ Hmk H)
    as (imgs & s & -> & Hm & Hw & Hinv & [H1 H2 H3 H4 H5 H6 H7 H8 H9]).
  rewrite Hw, Hnone in *.
  assert (Hg : gets (new_events w1 w') = []).
  { apply Permutation_nil_r. rewrite H4.
    by rewrite (returned_requests _ _ _ _ _ Hinv Hm). }
  assert (Hwr : writes (new_events w1 w') = []).
  { destruct (writes (new_events w1 w')) as [|[p b] ws] eqn:E; [done|].
    assert (Hin : p ∈ saved s) by (rewrite <- H5; left).
    destruct (saved_candidate _ _ _ _ _ Hinv Hin) as (c & Hc & _).
    by apply elem_of_nil in Hc. }
  assert (Hpa : partials (new_events w1 w') = []).
  { destruct (partials (new_events w1 w')) as [|pb ps] eqn:E; [done|].
    apply Forall_cons in H8 as [(_ & task & Ht & _) _].
    pose proof (inv_main _ _ _ _ Hinv) as Hmain. rewrite Hm in Hmain.
    destruct Hmain as (Hfut & _). rewrite Hfut in Ht.
    by apply elem_of_nil in Ht. }
  assert (Hl : new_events w1 w' = []).
  { apply length_zero_iff_nil. by rewrite H7, Hg, Hwr, Hpa. }
  rewrite Hl, ?app_nil_r in *. simpl in H3.
  split.
  - f_equal. apply length_zero_iff_nil.
    pose proof (inv_main _ _ _ _ Hinv) as Hmain. rewrite Hm in Hmain.
    destruct Hmain as (_ & _ & _ & Himgs). rewrite Himgs, <- saved_length.
    by rewrite <- H5, Hwr.
  - destruct w', w1. simpl in *. by subst.
Qed.

End ScrapeEffects.

(** X10.  On a page [scheme//host/...], [scrape] requests the page and
    then, once each and in some order, every candidate of the page
    resolved against [https://host]: root-relative and path-relative
    references are requested over https whatever the scheme of the page,
    and nothing else is requested. *)
Theorem scrape_requests `{RT : Runtime} (sched : list action)
    (scheme host rest : str) (w w' : World) (d : dict) :
  let url := scheme ++ lit "//" ++ host ++ rest in
  slash ∉ scheme → slash ∉ host →
  rest = [] ∨ Py.startswith rest [slash] = true →
  scrape sched url w = Some (Ok d, w') → d ≠ [] →
  ∃ response,
    http_get (log w) url = Ok response
    ∧ gets (new_events w w')
      ≡ₚ url :: ((fun c => resolve_url c (lit "https://" ++ host))
                   <$> potential_image_urls (html_parser (content response))).
Proof.
  intros url Hs Hh Hr H Hd.
  destruct (scrape_effects _ _ _ _ _ H Hd)
    as (response & h & host' & l & Hp & _ & Hsplit & _ & Hn & _ & _ & Hg & _).
  unfold url in Hsplit. rewrite (split_host _ _ _ Hs Hh Hr) in Hsplit.
  injection Hsplit as <-.
  exists response. split; [by destruct (fetch_page_ok _ _ _ _ Hp)|].
  rewrite Hn. csimpl. by rewrite Hg.
Qed.

Lemma scrape_requests_witness :
  ∃ response,
    http_get (Runtime := Fixtures.mirror) []
      (lit "http:" ++ lit "//" ++ lit "site.com" ++ lit "/gallery")
    = Ok response
    ∧ gets (new_events Bench.empty_world
              (Fixtures.scraped Fixtures.mirror (Bench.sequential 5)
                 Fixtures.http_page))
      ≡ₚ (lit "http:" ++ lit "//" ++ lit "site.com" ++ lit "/gallery")
         :: ((fun c => resolve_url c (lit "https://" ++ lit "site.com"))
               <$> potential_image_urls (RT := Fixtures.mirror)
                     (html_parser (Runtime := Fixtures.mirror)
                        (content response))).
Proof.
  apply (scrape_requests (RT := Fixtures.mirror) (Bench.sequential 5)
           (lit "http:") (lit "site.com") (lit "/gallery") Bench.empty_world
           (Fixtures.scraped Fixtures.mirror (Bench.sequential 5)
              Fixtures.http_page)
           (location (lit "cc48c9231d734c43ba7b9537863ce675")));
    try (vm_compute; intros Hin;
         by repeat (inversion Hin as [|? ? ? Hin']; clear Hin;
                    rename Hin' into Hin)).
  - by right.
  - vm_compute. reflexivity.
Defined.

(** On an [http] page the resources are requested over [https]. *)
Example http_page_https_resources :
  gets (new_events Bench.empty_world
          (Fixtures.scraped Fixtures.mirror (Bench.sequential 5)
             Fixtures.http_page))
  = [ lit "http://site.com/gallery";
      lit "https://site.com/img/a.png";
      lit "https://site.com/b.jpg";
      lit "https://site.com/c.GIF";
      lit "https://other.org/d.bmp";
      lit "https://cdn.site.com/e.webp" ].
Proof. vm_compute. reflexivity. Qed.



(** With the disk filling up, the gallery run leaves one image and one
    cut-off file in the store, and returns the location all the same. *)
Example gallery_on_full_disk :
  let w' := Fixtures.scraped Bench.disk_full (Bench.sequential 5)
              Bench.page_url in
  writes (new_events Bench.empty_world w')
  = [(lit "downloads/229442d1a65f7a06b993519ba8d68246/e.webp",
      Bench.webp_bytes)]
  ∧ partials (new_events Bench.empty_world w')
    = [(lit "downloads/229442d1a65f7a06b993519ba8d68246/a.png",
        Bench.blit "PNG:")].
Proof. vm_compute. by split. Qed.

(** X12.  A page without candidates is still a processed page: [scrape]
    makes the store directory, requests nothing but the page, writes no
    file and returns the location; from then on the endpoint answers
    from the empty directory and never fetches the page again. *)
Theorem scrape_no_candidates `{RT : Runtime} (url : str) (w w1 w2 : World)
    (response : Response) (h host : str) :
  fetch_page url w = (Ok response, w1) →
  potential_image_urls (html_parser (content response)) = [] →
  sanitize_url url = Ok h →
  Py.split slash url !! 2%nat = Some host →
  makedirs (store_path h) w1 = (Ok tt, w2) →
  scrape [AsCompleted; Return] url w = Some (Ok (location h), w2)
  ∧ (∀ sched r w',
       scrape sched url w = Some (r, w') → r = Ok (location h) ∧ w' = w2)
  ∧ new_events w w2 = [EvGet url; EvMakedirs (store_path h)]
  ∧ files w2 = files w
  ∧ (∀ sched,
       scrape_images_endpoint sched url w2 = Some (Ok (location h), w2)).
Proof.
  intros Hp Hnone Hh Hs Hmk.
  destruct (fetch_page_ok _ _ _ _ Hp) as (_ & _ & Hw1).
  assert (Hall : ∀ sched r w',
            scrape sched url w = Some (r, w') → r = Ok (location h) ∧ w' = w2).
  { intros sched r w' H. unfold scrape in H. rewrite Hp, Hh, Hs in H.
    destruct (scrape_images _ _ _ _ _) as [[r' w'']|] eqn:Hi; [|done].
    destruct (scrape_images_nothing _ _ _ _ _ _ _ _ _ Hnone Hmk Hi)
      as [-> ->].
    simpl in H. by injection H as <- <-. }
  destruct (makedirs_cases (store_path h) w1) as [[e He]|He];
    rewrite He in Hmk; [done|]. injection Hmk as <-.
  split_and!; try done.
  - unfold scrape. rewrite Hp, Hh, Hs.
    unfold scrape_images. fold (store_path h). rewrite He, Hnone. done.
  - apply new_events_app. rewrite Hw1. simpl. by rewrite <- app_assoc.
  - by rewrite Hw1.
  - intros sched. unfold scrape_images_endpoint. rewrite Hh.
    fold (store_path h).
    by rewrite (makedirs_isdir _ _ _ _ He).
Qed.

Lemma scrape_no_candidates_witness :
  scrape (RT := Fixtures.blank) [AsCompleted; Return]
    (lit "https://blank.org/") Bench.empty_world
  = Some (Ok (location (lit "a7806ce5007eaeb63a449661740d3881")),
          Fixtures.scraped Fixtures.blank [AsCompleted; Return]
            (lit "https://blank.org/")).
Proof.
  refine (proj1 (scrape_no_candidates (RT := Fixtures.blank)
                   (lit "https://blank.org/") Bench.empty_world
                   (record (EvGet (lit "https://blank.org/"))
                      Bench.empty_world)
                   (Fixtures.scraped Fixtures.blank [AsCompleted; Return]
                      (lit "https://blank.org/"))
                   {| status_code := 200; content := [] |}
                   (lit "a7806ce5007eaeb63a449661740d3881")
                   (lit "blank.org") _ _ _ _ _));
    vm_compute; reflexivity.
Defined.

(** Whatever the answer, the request of the page is the one effect of
    [fetch_page]. *)
Lemma fetch_page_world `{RT : Runtime} (url : str) (w w1 : World)
    (r : result Response) :
  fetch_page url w = (r, w1) → w1 = record (EvGet url) w.
Proof.
  unfold fetch_page, session_get, raise_for_status. unfold_M. simpl.
  destruct (http_get (log w) url) as [r'|e'];
    [|intros Heq; by inversion Heq].
  destruct ((400 <=? status_code r')%Z && (status_code r' <? 600)%Z);
    intros Heq; by inversion Heq.
Qed.

(** X13.  A page that could not be fetched is not remembered: the
    endpoint returns the empty dictionary, the store directory is still
    absent, and the next call on the URL goes to [scrape] again and
    requests the page once more. *)
Theorem failed_page_not_cached `{RT : Runtime} (sched : list action)
    (url h : str) (w : World) :
  sanitize_url url = Ok h →
  isdir w (store_path h) = false →
  (∃ e, http_get (log w) url = Raise e ∧ is_RequestException e = true)
  ∨ (∃ r, http_get (log w) url = Ok r ∧ (400 ≤ status_code r < 600)%Z) →
  let w' := record (EvGet url) w in
  scrape_images_endpoint sched url w = Some (Ok [], w')
  ∧ isdir w' (store_path h) = false
  ∧ ∀ sched' r w'',
      scrape_images_endpoint sched' url w' = Some (r, w'') →
      ∃ l, log w'' = log w' ++ EvGet url :: l.
Proof.
  intros Hh Hd Hfail w'.
  assert (Hscrape : scrape sched url w = Some (Ok [], w')).
  { unfold scrape, fetch_page, session_get, raise_for_status. unfold_M.
    destruct Hfail as [(e & -> & He)|(r & -> & Hr)]; simpl.
    - by rewrite He.
    - assert ((400 <=? status_code r)%Z && (status_code r <? 600)%Z = true)
        as ->; [|done].
      apply andb_true_iff. split; [apply Z.leb_le|apply Z.ltb_lt]; lia. }
  split_and!.
  - unfold scrape_images_endpoint. rewrite Hh. fold (store_path h).
    by rewrite Hd.
  - done.
  - intros sched' r w'' H.
    unfold scrape_images_endpoint in H. rewrite Hh in H.
    fold (store_path h) in H.
    assert (isdir w' (store_path h) = false) as Hd' by done.
    rewrite Hd' in H. unfold scrape in H.
    destruct (fetch_page url w') as [r0 w1] eqn:Hp.
    apply fetch_page_world in Hp as ->.
    destruct r0 as [response|e].
    2:{ exists []. by destruct (is_RequestException e); injection H as _ <-. }
    destruct (sanitize_url url) as [h'|e]; [|injection H as _ <-; by exists []].
    destruct (Py.split slash url !! 2%nat) as [host|];
      [|injection H as _ <-; by exists []].
    destruct (scrape_images _ _ _ _ _) as [[r' w2]|] eqn:Hi; [|done].
    simpl in H.
    assert (Hlog : ∃ l, log w2 = log w' ++ EvGet url :: l).
    { destruct (makedirs_cases (store_path h') (record (EvGet url) w'))
        as [[e He]|He].
      - rewrite (scrape_images_makedirs_fails _ _ _ _ _ _ _ He) in Hi.
        injection Hi as _ <-. by exists [].
      - destruct (scrape_images_effects _ _ _ _ _ _ _ _ _ He Hi)
          as (imgs & s & _ & _ & Hw & _ & [H1 _ _ _ _ _ _]).
        rewrite Hw in H1. rewrite H1. simpl.
        eexists. by rewrite <- !app_assoc. }
    by destruct r'; injection H as _ <-.
Qed.

Lemma failed_page_not_cached_witness :
  scrape_images_endpoint (RT := Bench.healthy) []
    (lit "https://site.com/moved") Bench.store_world
  = Some (Ok [],
          record (EvGet (lit "https://site.com/moved")) Bench.store_world).
Proof.
  refine (proj1 (failed_page_not_cached (RT := Bench.healthy) []
                   (lit "https://site.com/moved")
                   (lit "05c26c02b42ef06068cb61675e0b9811")
                   Bench.store_world _ _ _)).
  - vm_compute. reflexivity.
  - vm_compute. reflexivity.
  - right. exists {| status_code := 503; content := [] |}.
    split; [vm_compute; reflexivity|]. simpl. lia.
Defined.

(** ** From the worker to the listing *)

Lemma sanitize_image_name_no_slash (image_url : str) :
  slash ∉ sanitize_image_name image_url.
Proof.
  intros H.
  by destruct (proj1 (Forall_forall _ _)
                 (sanitize_image_name_chars image_url) _ H).
Qed.

(** A name without a slash, joined to a directory, is an entry of that
    directory under that name. *)
Lemma entry_name_join (d name : str) :
  name ≠ [] → slash ∉ name →
  entry_name d (os_path.join d name) = Some name.
Proof.
  intros Hne Hs. unfold entry_name.
  rewrite (join_name d name (startswith_no_slash name Hs)).
  rewrite startswith_app, drop_app_length.
  rewrite bool_decide_eq_false_2 by done.
  by destruct name.
Qed.

(** X14.  What a worker saved is found again by the listing under the
    sanitized name: after a download that returned its URL, the store
    directory has an entry of that name, and [get_downloads] returns its
    [/downloads/<hash>/<name>] path when, and only when, the lower-cased
    sanitized name ends in a listed extension. *)
Theorem downloaded_image_listed `{RT : Runtime} (h url image_url : str)
    (w w' : World) :
  isdir w (store_path h) = true →
  sanitize_image_name url ≠ [] →
  download_image_if_valid image_url
    (os_path.join (store_path h) (sanitize_image_name url)) w
  = (Ok (Some image_url), w') →
  sanitize_image_name url ∈ listdir w' (store_path h)
  ∧ (is_image_name (sanitize_image_name url) = true →
     ∃ imgs, get_downloads h w' = (Ok [(lit "images", VList imgs)], w')
             ∧ download_url h (sanitize_image_name url) ∈ imgs)
  ∧ (is_image_name (sanitize_image_name url) = false →
     ∀ imgs, get_downloads h w' = (Ok [(lit "images", VList imgs)], w') →
             download_url h (sanitize_image_name url) ∉ imgs).
Proof.
  intros Hd Hne H.
  pose proof (sanitize_image_name_no_slash url) as Hs.
  set (name := sanitize_image_name url) in *.
  set (path := os_path.join (store_path h) name) in *.
  rewrite download_image_if_valid_cases in H.
  destruct (fetched _) as [b|]; [|done].
  destruct (valid_image b); [|done].
  destruct (open_wb_write_cases path b (record (EvGet image_url) w))
    as [[e He]|[(e & n & He)|He]]; rewrite He in H; [done|done|].
  injection H as Hw'.
  assert (Hfile : files w' !! path = Some b).
  { rewrite <- Hw'. simpl. apply lookup_insert_eq. }
  assert (Hdir : isdir w' (store_path h) = true).
  { by rewrite <- Hw'. }
  assert (Hin : name ∈ listdir w' (store_path h)).
  { apply elem_of_listdir. exists path. split.
    - left. by rewrite Hfile.
    - by apply entry_name_join. }
  split_and!; [done| |].
  - intros Himg. unfold get_downloads. fold (store_path h). rewrite Hdir.
    assert (Hl : download_url h name
                 ∈ download_url h
                     <$> filter (fun f => is_image_name f = true)
                           (listdir w' (store_path h))).
    { apply list_elem_of_fmap. exists name. split; [done|].
      by apply list_elem_of_filter. }
    cbn [negb]. rewrite bool_decide_eq_true_2.
    + by eexists.
    + intros Hnil. rewrite Hnil in Hl. by apply not_elem_of_nil in Hl.
  - intros Himg imgs. unfold get_downloads. fold (store_path h). rewrite Hdir.
    cbn [negb]. case_bool_decide; [|done]. cbn [negb].
    intros [= <-] (f & Hf & Hfl)%list_elem_of_fmap.
    apply list_elem_of_filter in Hfl as [Hfi _].
    unfold download_url in Hf.
    apply app_inv_head, app_inv_head, app_inv_head in Hf. subst f.
    congruence.
Qed.

Lemma downloaded_image_listed_witness :
  lit "a.png"
  ∈ listdir
      (download_image_if_valid (RT := Bench.healthy)
         (lit "https://site.com/img/a.png") (lit "downloads/abc/a.png")
         Bench.store_world).2
      (lit "downloads/abc").
Proof.
  refine (proj1 (downloaded_image_listed (RT := Bench.healthy) (lit "abc")
                   (lit "/img/a.png") (lit "https://site.com/img/a.png")
                   Bench.store_world _ _ _ _)).
  - vm_compute. reflexivity.
  - vm_compute. discriminate.
  - vm_compute. reflexivity.
Defined.

(** A candidate whose extension is in its query string is saved under a
    name without extension: the image is in the store and the listing
    passes over it. *)
Example query_candidate_saved_unlisted :
  let w' :=
    (download_image_if_valid (RT := Fixtures.png_host)
       (resolve_url (lit "/view?file=a.png") Bench.site)
       (os_path.join (store_path (lit "abc"))
          (sanitize_image_name (lit "/view?file=a.png")))
       Bench.store_world).2 in
  looks_like_image (RT := Fixtures.png_host) (lit "/view?file=a.png") = true
  ∧ files w' !! lit "downloads/abc/view" = Some Bench.png_bytes
  ∧ get_downloads (RT := Fixtures.png_host) (lit "abc") w'
    = (Ok [(lit "images", VList [lit "/downloads/abc/a.PNG"])], w').
Proof. vm_compute. by split_and!. Qed.
